(** * cmd-palette: the command palette component, src/CommandPalette.vue

    A shallow embedding of the script part of the component: the two
    computed lists (groupedCommands, flattenedCommands), the panel
    functions (openPanel, closePanel, executeCommand), the listeners
    (handleKeydown, handleGlobalKeydown, handleMouseEnter) and the watcher
    on searchQuery; followed by the properties of the behavioural
    specification, each stated against these definitions. *)

From Stdlib Require Import List String Ascii ZArith NArith Bool Lia Permutation
  Sorted.
Import ListNotations.
Open Scope string_scope.
Open Scope list_scope.

(** ** The JavaScript values the component relies on *)

Module JS.

(** Command objects are compared by reference ([Array.prototype.indexOf]
    uses strict equality), so an array of commands is a list of
    references into a store of objects. *)
Definition Ref := nat.

(** *** Plain objects used as string-keyed maps

    [const groups: Record<string, CommandItem[]> = {}] is an ordinary
    object: its own properties are kept in creation order, reads fall
    back to [Object.prototype], and [Object.keys] lists the own keys that
    are array indices first, in ascending numeric order, and the other
    keys after them in creation order. *)

Definition is_digit (c : ascii) : bool :=
  (48 <=? N_of_ascii c)%N && (N_of_ascii c <=? 57)%N.

Fixpoint decimal (acc : N) (s : string) : option N :=
  match s with
  | EmptyString => Some acc
  | String c t =>
      if is_digit c then decimal (10 * acc + (N_of_ascii c - 48))%N t
      else None
  end.

(** A key is an array index when it is the canonical decimal form of an
    integer in [0, 2^32 - 2]. *)
Definition array_index (k : string) : option N :=
  match k with
  | EmptyString => None
  | String c t =>
      if Ascii.eqb c "0"%char && negb (String.eqb t "") then None
      else match decimal 0 k with
           | Some n => if (n <=? 4294967294)%N then Some n else None
           | None => None
           end
  end.

Definition is_array_index (k : string) : bool :=
  match array_index k with Some _ => true | None => false end.

(** The property names every ordinary object inherits. *)
Definition Object_prototype : list string :=
  [ "constructor"; "hasOwnProperty"; "isPrototypeOf";
    "propertyIsEnumerable"; "toLocaleString"; "toString"; "valueOf";
    "__proto__"; "__defineGetter__"; "__defineSetter__";
    "__lookupGetter__"; "__lookupSetter__" ].

Definition inherited (k : string) : bool :=
  existsb (String.eqb k) Object_prototype.

Section Obj.
Variable V : Type.

(** Own properties, oldest first. *)
Definition Obj := list (string * V).

Definition keys (o : Obj) : list string := map fst o.

Fixpoint own (o : Obj) (k : string) : option V :=
  match o with
  | [] => None
  | (k', v) :: t => if String.eqb k' k then Some v else own t k
  end.

(** What [o[k]] evaluates to. *)
Inductive Lookup :=
| Own (v : V)
| Inherited
| Undefined.

Definition get (o : Obj) (k : string) : Lookup :=
  match own o k with
  | Some v => Own v
  | None => if inherited k then Inherited else Undefined
  end.

(** [o[k] = v] on a key that is not an own property yet. *)
Definition define (o : Obj) (k : string) (v : V) : Obj := o ++ [(k, v)].

(** In-place change of the value stored at an own property. *)
Fixpoint update (o : Obj) (k : string) (f : V -> V) : Obj :=
  match o with
  | [] => []
  | (k', v) :: t =>
      if String.eqb k' k then (k', f v) :: t
      else (k', v) :: update t k f
  end.
End Obj.

Arguments keys {V} o.
Arguments own {V} o k.
Arguments get {V} o k.
Arguments define {V} o k v.
Arguments update {V} o k f.
Arguments Own {V} v.
Arguments Inherited {V}.
Arguments Undefined {V}.

(** Ascending order on array indices. *)
Fixpoint insert_index (n : N) (k : string) (l : list (N * string))
  : list (N * string) :=
  match l with
  | [] => [(n, k)]
  | (m, k') :: t =>
      if (n <=? m)%N then (n, k) :: l else (m, k') :: insert_index n k t
  end.

Fixpoint index_keys (ks : list string) : list (N * string) :=
  match ks with
  | [] => []
  | k :: t =>
      match array_index k with
      | Some n => insert_index n k (index_keys t)
      | None => index_keys t
      end
  end.

Definition own_property_keys (ks : list string) : list string :=
  map snd (index_keys ks) ++ filter (fun k => negb (is_array_index k)) ks.

Definition Object_keys {V} (o : Obj V) : list string :=
  own_property_keys (keys o).

(** *** Arrays *)

(** [a[i]] for a number [i]: [undefined] outside the array. *)
Definition at_index {A} (a : list A) (i : Z) : option A :=
  if (i <? 0)%Z then None else nth_error a (Z.to_nat i).

(** [a.indexOf(x)]: the first position holding the very object [x],
    or -1. *)
Fixpoint indexOf (a : list Ref) (x : Ref) : Z :=
  match a with
  | [] => -1
  | y :: t =>
      if Nat.eqb y x then 0
      else let i := indexOf t x in if (i <? 0)%Z then -1 else i + 1
  end%Z.

Definition length {A} (a : list A) : Z := Z.of_nat (List.length a).

End JS.

Import JS (Ref).

(** ** The component *)

Section Palette.

(** Everything of the host application that a command's action can
    reach besides the component itself. *)
Variable Host : Type.

(** The prop [commands], the model [visible] (a two-way binding shared
    with the host, a boolean prop and hence never undefined) and the
    refs of the script. *)
Record World := mkWorld {
  commands : list Ref;
  visible : bool;
  searchQuery : string;
  selectedIndex : Z;
  isKeyboardNavigation : bool;
  host : Host
}.

(** [interface CommandItem].  An action is caller code: it runs against
    the whole world (it may write the [visible] binding, as the
    playground's actions do).  Only what it does before it returns is
    part of the event that called it; whether it then throws or returns
    a promise makes no difference to the component, which does nothing
    after the call. *)
Record CommandItem := mkCommandItem {
  id : string;
  title : string;
  description : option string;
  icon : option string;
  action : World -> World;
  category : option string
}.

(** The store of command objects; the component only reads it. *)
Variable heap : Ref -> CommandItem.

Definition set_visible (b : bool) (w : World) : World :=
  mkWorld (commands w) b (searchQuery w) (selectedIndex w)
          (isKeyboardNavigation w) (host w).

Definition set_searchQuery (q : string) (w : World) : World :=
  mkWorld (commands w) (visible w) q (selectedIndex w)
          (isKeyboardNavigation w) (host w).

Definition set_selectedIndex (i : Z) (w : World) : World :=
  mkWorld (commands w) (visible w) (searchQuery w) i
          (isKeyboardNavigation w) (host w).

Definition set_isKeyboardNavigation (b : bool) (w : World) : World :=
  mkWorld (commands w) (visible w) (searchQuery w) (selectedIndex w)
          b (host w).

(** *** The computed lists *)

(** [command.category || 'Other']: an absent and an empty category are
    both falsy. *)
Definition categoryOf (command : Ref) : string :=
  match category (heap command) with
  | Some EmptyString => "Other"
  | Some c => c
  | None => "Other"
  end.

Definition Groups := JS.Obj (list Ref).

(** [a.forEach(f)] with a callback that may throw: [None] is the
    exception, which ends the loop. *)
Fixpoint forEach {A S : Type} (f : S -> A -> option S) (a : list A) (s : S)
  : option S :=
  match a with
  | [] => Some s
  | x :: t => match f s x with
              | Some s' => forEach f t s'
              | None => None
              end
  end.

(** The callback of groupedCommands.  [groups[category].push] is a
    TypeError when [groups[category]] is a member of Object.prototype
    instead of an array. *)
Definition group_command (groups : Groups) (command : Ref) : option Groups :=
  let category := categoryOf command in
  let groups :=
    match JS.get groups category with
    | JS.Undefined => JS.define groups category []
    | _ => groups
    end in
  match JS.get groups category with
  | JS.Own _ => Some (JS.update groups category (fun cs => cs ++ [command]))
  | _ => None
  end.

(** One evaluation of the getter of groupedCommands: the grouping, or
    [None] for the TypeError. *)
Definition groupedCommands (w : World) : option Groups :=
  forEach group_command (commands w) [].

(** The callback of flattenedCommands: [result.push(...groups[category])]
    under [if (groups[category])]. *)
Definition push_group (groups : Groups) (result : list Ref) (category : string)
  : option (list Ref) :=
  match JS.get groups category with
  | JS.Own cs => Some (result ++ cs)
  | JS.Inherited => None
  | JS.Undefined => Some result
  end.

(** One evaluation of the getter of flattenedCommands on the value of
    groupedCommands for the current list.  [Some] is the value every read
    of the computed returns while the getters have a value for the list;
    [None] says that they have none.  In that case what a read gives is
    decided by Vue's cache (the read that evaluates the getter throws,
    other reads return the value of an earlier list): the cache is not
    part of [World], and nothing below is stated about what listeners or
    the template read then. *)
Definition flattenedCommands (w : World) : option (list Ref) :=
  match groupedCommands w with
  | Some groups => forEach (push_group groups) (JS.Object_keys groups) []
  | None => None
  end.

(** *** Listeners: state, effects and exceptions *)

Inductive Effect :=
| PreventDefault        (* event.preventDefault() *)
| Call (command : Ref)  (* command.action() *)
| FocusInput            (* nextTick(() => inputRef.value?.focus()) *)
| ScrollToSelected      (* the nextTick of scrollToSelectedCommand *)
| ClearNavigationLater. (* setTimeout(..., 100) *)

Inductive Completion (A : Type) :=
| Normal (a : A)
| Throw.
Arguments Normal {A} a.
Arguments Throw {A}.

Record Run (A : Type) := mkRun {
  completion : Completion A;
  world : World;
  effects : list Effect
}.
Arguments mkRun {A} _ _ _.
Arguments completion {A} _.
Arguments world {A} _.
Arguments effects {A} _.

Definition M (A : Type) := World -> Run A.

Definition ret {A} (a : A) : M A := fun w => mkRun (Normal a) w [].

Definition bind {A B} (m : M A) (k : A -> M B) : M B :=
  fun w =>
    let r := m w in
    match completion r with
    | Normal a =>
        let r' := k a (world r) in
        mkRun (completion r') (world r') (effects r ++ effects r')
    | Throw => mkRun Throw (world r) (effects r)
    end.

Definition assign (f : World -> World) : M unit :=
  fun w => mkRun (Normal tt) (f w) [].

Definition read {A} (f : World -> A) : M A :=
  fun w => mkRun (Normal (f w)) w [].

Definition emit (e : Effect) : M unit :=
  fun w => mkRun (Normal tt) w [e].

(** Reading a computed, [c.value].  While the getter has a value the read
    returns it, whether Vue evaluates the getter at this read or serves
    its cache.  When the getter has none the run is followed along the
    read that evaluates the getter, which throws; a read that Vue answers
    from its cache instead is outside the model (see flattenedCommands).
    A run that ends in [Throw] is therefore only used for what happened
    before the read. *)
Definition value {A} (c : World -> option A) : M A :=
  fun w => match c w with
           | Some a => mkRun (Normal a) w []
           | None => mkRun Throw w []
           end.

Notation "x <- m ;; k" := (bind m (fun x => k))
  (at level 61, m at next level, right associativity).
Notation "m ;; k" := (bind m (fun _ => k))
  (at level 61, right associativity).

Definition closePanel : M unit :=
  assign (set_visible false) ;;
  assign (set_searchQuery "") ;;
  assign (set_selectedIndex 0) ;;
  assign (set_isKeyboardNavigation false).

Definition openPanel : M unit :=
  assign (set_visible true) ;;
  assign (set_selectedIndex 0) ;;
  assign (set_searchQuery "") ;;
  assign (set_isKeyboardNavigation false) ;;
  emit FocusInput.

Definition executeCommand (command : Ref) : M unit :=
  fun w => mkRun (Normal tt) (action (heap command) w) [Call command].

(** The list element exists whenever the panel is rendered, which it is
    when a key event reaches handleKeydown. *)
Definition scrollToSelectedCommand : M unit := emit ScrollToSelected.

Definition handleMouseEnter (command : Ref) : M unit :=
  nav <- read isKeyboardNavigation ;;
  if nav then ret tt
  else
    flat <- value flattenedCommands ;;
    assign (set_selectedIndex (JS.indexOf flat command)).

Record KeyboardEvent := mkKeyboardEvent {
  key : string;
  metaKey : bool;
  ctrlKey : bool
}.

Definition handleKeydown (event : KeyboardEvent) : M unit :=
  shown <- read visible ;;
  if negb shown then ret tt
  else if String.eqb (key event) "Escape" then
    emit PreventDefault ;;
    closePanel
  else if String.eqb (key event) "ArrowDown" then
    emit PreventDefault ;;
    assign (set_isKeyboardNavigation true) ;;
    i <- read selectedIndex ;;
    flat <- value flattenedCommands ;;
    assign (set_selectedIndex (Z.min (i + 1) (JS.length flat - 1))) ;;
    scrollToSelectedCommand ;;
    emit ClearNavigationLater
  else if String.eqb (key event) "ArrowUp" then
    emit PreventDefault ;;
    assign (set_isKeyboardNavigation true) ;;
    i <- read selectedIndex ;;
    assign (set_selectedIndex (Z.max (i - 1) 0)) ;;
    scrollToSelectedCommand ;;
    emit ClearNavigationLater
  else if String.eqb (key event) "Enter" then
    emit PreventDefault ;;
    flat <- value flattenedCommands ;;
    i <- read selectedIndex ;;
    match JS.at_index flat i with
    | Some command => executeCommand command
    | None => ret tt
    end
  else ret tt.

Definition handleGlobalKeydown (event : KeyboardEvent) : M unit :=
  if (metaKey event || ctrlKey event) && String.eqb (key event) "k" then
    emit PreventDefault ;;
    shown <- read visible ;;
    if shown then closePanel else openPanel
  else ret tt.

(** [v-model="searchQuery"] on the input element. *)
Definition handleInput (text : string) : M unit :=
  assign (set_searchQuery text).

(** The callback given to setTimeout by the arrow keys. *)
Definition clearNavigation : M unit :=
  assign (set_isKeyboardNavigation false).

(** [watch(searchQuery, () => { selectedIndex.value = 0 })]: the callback
    runs before the next render when the value differs from the one the
    previous render saw. *)
Definition watch_searchQuery (before after : World) : World :=
  if String.eqb (searchQuery before) (searchQuery after) then after
  else set_selectedIndex 0 after.

(** One listener run by the event loop: an exception ends the listener
    and leaves the writes made so far; the watcher is flushed after. *)
Definition fire (listener : M unit) (w : World) : World :=
  watch_searchQuery w (world (listener w)).

(** The actions a listener run has called, in order. *)
Definition called (listener : M unit) (w : World) : list Ref :=
  flat_map (fun e => match e with Call c => [c] | _ => [] end)
           (effects (listener w)).

(** A key pressed inside the panel reaches the panel's listener and
    then, bubbling, the document's. *)
Definition keydown (event : KeyboardEvent) (w : World) : World :=
  fire (handleGlobalKeydown event) (fire (handleKeydown event) w).

Definition press (events : list KeyboardEvent) (w : World) : World :=
  fold_left (fun w event => keydown event w) events w.

End Palette.

Arguments mkWorld {Host} _ _ _ _ _ _.
Arguments commands {Host} w.
Arguments visible {Host} w.
Arguments searchQuery {Host} w.
Arguments selectedIndex {Host} w.
Arguments isKeyboardNavigation {Host} w.
Arguments host {Host} w.
Arguments mkCommandItem {Host} _ _ _ _ _ _.
Arguments id {Host} c.
Arguments title {Host} c.
Arguments description {Host} c.
Arguments icon {Host} c.
Arguments action {Host} c w.
Arguments category {Host} c.
Arguments set_visible {Host} b w.
Arguments set_searchQuery {Host} q w.
Arguments set_selectedIndex {Host} i w.
Arguments set_isKeyboardNavigation {Host} b w.
Arguments categoryOf {Host} heap command.
Arguments forEach {A S} f a s.
Arguments group_command {Host} heap groups command.
Arguments groupedCommands {Host} heap w : simpl never.
Arguments flattenedCommands {Host} heap w : simpl never.
Arguments Normal {A} a.
Arguments Throw {A}.
Arguments mkRun {Host A} _ _ _.
Arguments completion {Host A} r.
Arguments world {Host A} r.
Arguments effects {Host A} r.
Arguments closePanel {Host} w.
Arguments openPanel {Host} w.
Arguments executeCommand {Host} heap command w.
Arguments handleMouseEnter {Host} heap command w.
Arguments handleKeydown {Host} heap event w.
Arguments handleGlobalKeydown {Host} event w.
Arguments handleInput {Host} text w.
Arguments clearNavigation {Host} w.
Arguments watch_searchQuery {Host} before after.
Arguments fire {Host} listener w.
Arguments called {Host} listener w.
Arguments keydown {Host} heap event w.
Arguments press {Host} heap events w.

(** The state the component owns or shares: [visible], [searchQuery],
    [selectedIndex] and [isKeyboardNavigation]. *)
Definition widget {Host} (w : World Host) : bool * string * Z * bool :=
  (visible w, searchQuery w, selectedIndex w, isKeyboardNavigation w).

(** The toggle chord: Cmd+K or Ctrl+K. *)
Definition is_hotkey (event : KeyboardEvent) : bool :=
  (metaKey event || ctrlKey event) && String.eqb (key event) "k".

(** The two navigation keys. *)
Definition is_arrow (event : KeyboardEvent) : Prop :=
  key event = "ArrowDown" \/ key event = "ArrowUp".

(** ** The grouping in the words of the specification *)

(** The object with one property per key of [ks], created in that order. *)
Definition tabulate {V : Type} (f : string -> V) (ks : list string)
  : JS.Obj V :=
  map (fun k => (k, f k)) ks.

Section Specification.
Context {Host : Type} (heap : Ref -> CommandItem Host).

(** The distinct elements of a list in the order of their first
    occurrence. *)
Fixpoint firstSeen (l : list string) : list string :=
  match l with
  | [] => []
  | x :: t => x :: filter (fun y => negb (String.eqb y x)) (firstSeen t)
  end.

(** The commands of one category, in input order. *)
Definition inCategory (c : string) (l : list Ref) : list Ref :=
  filter (fun r => String.eqb (categoryOf heap r) c) l.

Definition categories (l : list Ref) : list string :=
  firstSeen (map (categoryOf heap) l).

(** Each category, in first-seen order, with its commands in input
    order. *)
Definition grouped_spec (l : list Ref) : Groups :=
  tabulate (fun c => inCategory c l) (categories l).

(** The groups concatenated in first-seen order of the categories. *)
Definition flattened_spec (l : list Ref) : list Ref :=
  flat_map (fun c => inCategory c l) (categories l).

(** The groups concatenated in the key order of the grouping object. *)
Definition flattened_in_key_order (l : list Ref) : list Ref :=
  flat_map (fun c => inCategory c l) (JS.own_property_keys (categories l)).

End Specification.

(** ** Sample events and hosts *)

Module Keys.
Definition ArrowDown := mkKeyboardEvent "ArrowDown" false false.
Definition ArrowUp := mkKeyboardEvent "ArrowUp" false false.
Definition Enter := mkKeyboardEvent "Enter" false false.
Definition Escape := mkKeyboardEvent "Escape" false false.
Definition Cmd_K := mkKeyboardEvent "k" true false.
Definition Ctrl_K := mkKeyboardEvent "k" false true.
End Keys.

(** The playground application: three commands in two categories, each
    action logging and then clearing the visibility binding. *)
Module Playground.

Definition hide : World unit -> World unit := set_visible false.

Definition heap (r : Ref) : CommandItem unit :=
  match r with
  | 0 => mkCommandItem "new-file" "New File" (Some "Create a new file")
           (Some "i-hugeicons-file-add") hide (Some "File")
  | 1 => mkCommandItem "open-file" "Open File" (Some "Open an existing file")
           (Some "i-hugeicons-folder-open") hide (Some "File")
  | _ => mkCommandItem "settings" "Settings" (Some "Open application settings")
           (Some "i-hugeicons-settings-02") hide (Some "System")
  end.

Definition commands : list Ref := [0; 1; 2].

Definition closed : World unit := mkWorld commands false "" 0 false tt.

(** The open panel with the selection on command number [i]. *)
Definition open_at (i : Z) : World unit := mkWorld commands true "" i false tt.

End Playground.

(** A host whose actions only log: they leave the component and the
    binding alone.  Commands 0 and 2 are two objects with one id, command
    1 is filed under a year, command 3 has no category and command 4 is
    filed under the name of a method every object inherits. *)
Module Journal.

Definition log_only : World unit -> World unit := fun w => w.

Definition heap (r : Ref) : CommandItem unit :=
  match r with
  | 0 => mkCommandItem "today" "Today" None None log_only (Some "Recent")
  | 1 => mkCommandItem "archive" "Archive of 2024" None None log_only
           (Some "2024")
  | 2 => mkCommandItem "today" "Today (copy)" None None log_only
           (Some "Recent")
  | 3 => mkCommandItem "help" "Help" None None log_only None
  | _ => mkCommandItem "print" "Print" None None log_only (Some "toString")
  end.

(** The open panel after typing "ab" and moving down once. *)
Definition browsing (cs : list Ref) : World unit :=
  mkWorld cs true "ab" 1 false tt.

(** The panel right after it opened. *)
Definition opened (cs : list Ref) : World unit :=
  mkWorld cs true "" 0 false tt.

End Journal.

(** ** The events of the component *)

(** What can happen to the mounted component: a key pressed with the
    focus inside the panel or elsewhere in the document, a click on the
    overlay or on a command item, the pointer entering a command item,
    text typed into the search field, the 100 ms timer of the arrow keys
    running out, and the host calling an exposed function. *)
Inductive Event :=
| PanelKeydown (event : KeyboardEvent)
| DocumentKeydown (event : KeyboardEvent)
| OverlayClick
| ItemClick (command : Ref)
| ItemMouseEnter (command : Ref)
| Input (text : string)
| NavigationTimeout
| ExposedOpen
| ExposedClose.

Definition dispatch {Host} (heap : Ref -> CommandItem Host) (ev : Event)
  : World Host -> World Host :=
  match ev with
  | PanelKeydown event => keydown heap event
  | DocumentKeydown event => fire (handleGlobalKeydown event)
  | OverlayClick => fire closePanel
  | ItemClick command => fire (executeCommand heap command)
  | ItemMouseEnter command => fire (handleMouseEnter heap command)
  | Input text => fire (handleInput text)
  | NavigationTimeout => fire clearNavigation
  | ExposedOpen => fire openPanel
  | ExposedClose => fire closePanel
  end.

(** The elements an event needs: the panel and the overlay exist while
    [visible], and there is one item per command of the list. *)
Definition enabled {Host} (w : World Host) (ev : Event) : Prop :=
  match ev with
  | PanelKeydown _ | OverlayClick | Input _ => visible w = true
  | ItemClick command | ItemMouseEnter command =>
      visible w = true /\ In command (commands w)
  | DocumentKeydown _ | NavigationTimeout | ExposedOpen | ExposedClose => True
  end.

Definition run {Host} (heap : Ref -> CommandItem Host) (evs : list Event)
  (w : World Host) : World Host :=
  fold_left (fun w ev => dispatch heap ev w) evs w.

Fixpoint enabled_run {Host} (heap : Ref -> CommandItem Host)
  (evs : list Event) (w : World Host) : Prop :=
  match evs with
  | [] => True
  | ev :: rest => enabled w ev /\ enabled_run heap rest (dispatch heap ev w)
  end.

(** The keys of the [switch] in handleKeydown. *)
Definition handled_key (k : string) : Prop :=
  k = "Escape" \/ k = "ArrowDown" \/ k = "ArrowUp" \/ k = "Enter".

(** The selection points into the flattened list whenever that list is
    not empty. *)
Definition selection_valid {Host} (heap : Ref -> CommandItem Host)
  (w : World Host) : Prop :=
  forall flat,
    flattenedCommands heap w = Some flat -> flat <> [] ->
    (0 <= selectedIndex w <= JS.length flat - 1)%Z.

(** An action that leaves the command list alone and the selection
    valid, as every action does that only touches the host and the
    visibility binding. *)
Definition action_keeps_selection {Host} (heap : Ref -> CommandItem Host)
  : Prop :=
  forall command w,
    selection_valid heap w -> selection_valid heap (action (heap command) w).

(** Two categories that are array indices, the first not above the
    second. *)
Definition index_order (c d : string) : Prop :=
  match JS.array_index c, JS.array_index d with
  | Some n, Some m => (n <= m)%N
  | _, _ => False
  end.

(** The host replacing the prop [commands]. *)
Definition set_commands {Host} (cs : list Ref) (w : World Host) : World Host :=
  mkWorld cs (visible w) (searchQuery w) (selectedIndex w)
          (isKeyboardNavigation w) (host w).

(** ** The command list of the template *)

(** A string used as a condition: [v-if="command.icon"]. *)
Definition truthy (s : option string) : option string :=
  match s with
  | Some EmptyString => None
  | other => other
  end.

(** One [command-item] element: its key, its [data-command-index], whether
    it carries the class [selected] (and the selection indicator), the
    icon, title and description it shows, and the command its click and
    mouseenter listeners are bound to. *)
Record Item := mkItem {
  item_key : string;
  data_command_index : Z;
  item_selected : bool;
  item_icon : option string;
  item_title : string;
  item_description : option string;
  item_command : Ref
}.

Definition render_item {Host} (heap : Ref -> CommandItem Host)
  (w : World Host) (flat : list Ref) (command : Ref) : Item :=
  mkItem (id (heap command))
         (JS.indexOf flat command)
         (Z.eqb (selectedIndex w) (JS.indexOf flat command))
         (truthy (icon (heap command)))
         (title (heap command))
         (truthy (description (heap command)))
         command.

(** The children of the [command-list] element: the notice
    "No matching commands found", or one container per category, in the
    order [v-for] walks the grouping object (that of Object.keys), each
    with its title and its items.  [None] when the getters have no value
    for the list. *)
Inductive CommandList :=
| NoCommands
| Categories (containers : list (string * list Item)).

Definition render_category {Host} (heap : Ref -> CommandItem Host)
  (w : World Host) (groups : Groups) (flat : list Ref) (category : string)
  : string * list Item :=
  (category,
   match JS.get groups category with
   | JS.Own categoryCommands => map (render_item heap w flat) categoryCommands
   | _ => []
   end).

Definition render_command_list {Host} (heap : Ref -> CommandItem Host)
  (w : World Host) : option CommandList :=
  if Z.eqb (JS.length (commands w)) 0 then Some NoCommands
  else
    match groupedCommands heap w, flattenedCommands heap w with
    | Some groups, Some flat =>
        Some (Categories (map (render_category heap w groups flat)
                              (JS.Object_keys groups)))
    | _, _ => None
    end.

(** The items in document order. *)
Definition items (l : CommandList) : list Item :=
  match l with
  | NoCommands => []
  | Categories containers => flat_map snd containers
  end.

(** The element scrollToSelectedCommand scrolls into view:
    [querySelector(`[data-command-index="${selectedIndex.value}"]`)] is the
    first item in document order with that index. *)
Definition scroll_target {Host} (w : World Host) (l : CommandList)
  : option Item :=
  find (fun it => Z.eqb (data_command_index it) (selectedIndex w)) (items l).

(** ** The playground application *)

Module App.

(** [function toggleCommandPalette() { visible.value = !visible.value }],
    the click listener of the button; it writes the binding only. *)
Definition toggleCommandPalette (w : World unit) : World unit :=
  set_visible (negb (visible w)) w.

End App.

(** ** Lists, objects and key order *)

Section ListFacts.
Context {A : Type}.

Lemma filter_none (p : A -> bool) (l : list A) :
  (forall x, In x l -> p x = false) -> filter p l = [].
Proof.
  induction l as [|x t IH]; simpl; intros H; [reflexivity|].
  rewrite (H x (or_introl eq_refl)). apply IH. intros y Hy. apply H. now right.
Qed.

Lemma filter_all (p : A -> bool) (l : list A) :
  (forall x, In x l -> p x = true) -> filter p l = l.
Proof.
  induction l as [|x t IH]; simpl; intros H; [reflexivity|].
  rewrite (H x (or_introl eq_refl)). f_equal. apply IH. intros y Hy.
  apply H. now right.
Qed.

Lemma filter_split_perm (p : A -> bool) (l : list A) :
  Permutation (filter p l ++ filter (fun x => negb (p x)) l) l.
Proof.
  induction l as [|x t IH]; simpl; [constructor|].
  destruct (p x); simpl.
  - now constructor.
  - apply Permutation_sym, Permutation_cons_app, Permutation_sym, IH.
Qed.

Lemma flat_map_nil {B} (l : list B) :
  flat_map (fun _ => @nil A) l = [].
Proof. induction l; simpl; auto. Qed.

Lemma forEach_app {S} (f : S -> A -> option S) (a b : list A) (s : S) :
  forEach f (a ++ b) s =
  match forEach f a s with Some s' => forEach f b s' | None => None end.
Proof.
  revert s. induction a as [|x t IH]; simpl; intros s; [reflexivity|].
  destruct (f s x); [apply IH | reflexivity].
Qed.
End ListFacts.

Section FirstSeen.

Lemma firstSeen_In (x : string) (l : list string) :
  In x (firstSeen l) <-> In x l.
Proof.
  induction l as [|y t IH]; simpl; [tauto|].
  rewrite filter_In, IH, negb_true_iff, String.eqb_neq.
  destruct (string_dec y x) as [->|Hne]; [tauto|].
  split; [tauto|]. intros [H|H]; [tauto|]. right. split; [assumption|].
  congruence.
Qed.

Lemma firstSeen_NoDup (l : list string) : NoDup (firstSeen l).
Proof.
  induction l as [|y t IH]; simpl; constructor.
  - rewrite filter_In, String.eqb_refl. simpl. intros [_ H]. discriminate.
  - now apply NoDup_filter.
Qed.

Lemma firstSeen_snoc (l : list string) (c : string) :
  firstSeen (l ++ [c]) =
  firstSeen l ++ (if existsb (String.eqb c) l then [] else [c]).
Proof.
  induction l as [|y t IH]; simpl; [reflexivity|].
  rewrite IH, filter_app. f_equal. f_equal.
  destruct (existsb (String.eqb c) t); simpl.
  - now rewrite orb_true_r.
  - rewrite orb_false_r. now destruct (String.eqb c y).
Qed.

Lemma existsb_eqb_In (c : string) (l : list string) :
  existsb (String.eqb c) l = true <-> In c l.
Proof.
  rewrite existsb_exists. split.
  - intros (x & Hx & E). apply String.eqb_eq in E. now subst.
  - intros H. exists c. split; [assumption | apply String.eqb_refl].
Qed.
End FirstSeen.

Section ObjectFacts.
Context {V : Type}.

Lemma keys_tabulate (f : string -> V) ks : JS.keys (tabulate f ks) = ks.
Proof.
  unfold JS.keys, tabulate. rewrite map_map. simpl. apply map_id.
Qed.

Lemma own_tabulate_in (f : string -> V) ks k :
  In k ks -> JS.own (tabulate f ks) k = Some (f k).
Proof.
  induction ks as [|k' t IH]; simpl; intros H; [contradiction|].
  destruct (String.eqb_spec k' k) as [->|Hne]; [reflexivity|].
  apply IH. destruct H; [contradiction | assumption].
Qed.

Lemma own_tabulate_out (f : string -> V) ks k :
  ~ In k ks -> JS.own (tabulate f ks) k = None.
Proof.
  induction ks as [|k' t IH]; simpl; intros H; [reflexivity|].
  destruct (String.eqb_spec k' k) as [->|Hne]; [tauto|].
  apply IH. tauto.
Qed.

Lemma own_define_new (o : JS.Obj V) k v :
  JS.own o k = None -> JS.own (JS.define o k v) k = Some v.
Proof.
  unfold JS.define. induction o as [|[k' v'] t IH]; simpl.
  - now rewrite String.eqb_refl.
  - destruct (String.eqb k' k); [discriminate | exact IH].
Qed.

Lemma update_define_new (o : JS.Obj V) k v g :
  JS.own o k = None ->
  JS.update (JS.define o k v) k g = o ++ [(k, g v)].
Proof.
  unfold JS.define. induction o as [|[k' v'] t IH]; simpl; intros H.
  - now rewrite String.eqb_refl.
  - destruct (String.eqb k' k); [discriminate|]. now rewrite IH.
Qed.

Lemma update_tabulate (f : string -> V) ks k g :
  NoDup ks -> In k ks ->
  JS.update (tabulate f ks) k g =
  tabulate (fun k' => if String.eqb k' k then g (f k') else f k') ks.
Proof.
  induction ks as [|k' t IH]; simpl; intros Hnd Hin; [contradiction|].
  inversion Hnd as [|? ? Hout Hnd']; subst.
  destruct (String.eqb_spec k' k) as [->|Hne].
  - f_equal. apply map_ext_in. intros a Ha.
    destruct (String.eqb_spec a k) as [->|_]; [contradiction | reflexivity].
  - f_equal. apply IH; [assumption|]. destruct Hin; [contradiction | assumption].
Qed.
End ObjectFacts.

Section KeyOrder.

Lemma insert_index_perm n k l :
  Permutation (JS.insert_index n k l) ((n, k) :: l).
Proof.
  induction l as [|[m k'] t IH]; simpl; [reflexivity|].
  destruct (n <=? m)%N; [reflexivity|].
  rewrite IH. constructor.
Qed.

Lemma index_keys_perm ks :
  Permutation (map snd (JS.index_keys ks)) (filter JS.is_array_index ks).
Proof.
  induction ks as [|k t IH]; simpl; [constructor|].
  unfold JS.is_array_index at 1.
  destruct (JS.array_index k) as [n|]; [|exact IH].
  rewrite insert_index_perm. simpl. now constructor.
Qed.

(** Object.keys lists every own key once. *)
Lemma own_property_keys_perm ks :
  Permutation (JS.own_property_keys ks) ks.
Proof.
  unfold JS.own_property_keys. rewrite index_keys_perm.
  apply filter_split_perm.
Qed.

Lemma index_keys_none ks :
  (forall k, In k ks -> JS.is_array_index k = false) ->
  JS.index_keys ks = [].
Proof.
  induction ks as [|k t IH]; simpl; intros H; [reflexivity|].
  pose proof (H k (or_introl eq_refl)) as Hk. unfold JS.is_array_index in Hk.
  destruct (JS.array_index k); [discriminate|].
  apply IH. intros k' Hk'. apply H. now right.
Qed.

(** Without array indices among the keys, Object.keys is creation order. *)
Lemma own_property_keys_plain ks :
  (forall k, In k ks -> JS.is_array_index k = false) ->
  JS.own_property_keys ks = ks.
Proof.
  intros H. unfold JS.own_property_keys. rewrite index_keys_none by assumption.
  simpl. apply filter_all. intros k Hk. now rewrite H.
Qed.
End KeyOrder.

(** ** groupedCommands and flattenedCommands against the specification *)

Section Grouping.
Context {Host : Type} (heap : Ref -> CommandItem Host).

Local Abbreviation cat := (categoryOf heap).

Lemma inCategory_snoc c l r :
  inCategory heap c (l ++ [r]) =
  inCategory heap c l ++ (if String.eqb (cat r) c then [r] else []).
Proof. unfold inCategory. rewrite filter_app. reflexivity. Qed.

Lemma inCategory_absent c l :
  ~ In c (map cat l) -> inCategory heap c l = [].
Proof.
  intros H. apply filter_none. intros r Hr. apply String.eqb_neq.
  intros E. apply H. rewrite <- E. now apply in_map.
Qed.

Lemma categories_In c l : In c (categories heap l) <-> In c (map cat l).
Proof. apply firstSeen_In. Qed.

(** One more command: the callback takes the grouping of the commands
    seen so far to the grouping with the new one. *)
Lemma group_command_snoc l r :
  JS.inherited (cat r) = false ->
  group_command heap (grouped_spec heap l) r =
  Some (grouped_spec heap (l ++ [r])).
Proof.
  intros Hproto. unfold group_command, grouped_spec, categories.
  rewrite map_app. simpl. rewrite firstSeen_snoc.
  destruct (existsb (String.eqb (cat r)) (map cat l)) eqn:E.
  - apply existsb_eqb_In in E. rewrite app_nil_r.
    assert (Hin : In (cat r) (firstSeen (map cat l))) by now apply firstSeen_In.
    assert (Hget : JS.get (tabulate (fun c => inCategory heap c l)
                             (firstSeen (map cat l))) (cat r)
                   = JS.Own (inCategory heap (cat r) l)).
    { unfold JS.get. now rewrite own_tabulate_in. }
    rewrite Hget, Hget. f_equal.
    rewrite update_tabulate by (auto using firstSeen_NoDup).
    apply map_ext. intros k. rewrite inCategory_snoc. f_equal.
    rewrite (String.eqb_sym k). destruct (String.eqb (cat r) k).
    + reflexivity.
    + now rewrite app_nil_r.
  - assert (Hout : ~ In (cat r) (map cat l)).
    { intros H. apply existsb_eqb_In in H. congruence. }
    assert (Hown : JS.own (tabulate (fun c => inCategory heap c l)
                             (firstSeen (map cat l))) (cat r) = None).
    { apply own_tabulate_out. now rewrite firstSeen_In. }
    assert (Hget : JS.get (tabulate (fun c => inCategory heap c l)
                             (firstSeen (map cat l))) (cat r)
                   = JS.Undefined).
    { unfold JS.get. now rewrite Hown, Hproto. }
    rewrite Hget. unfold JS.get.
    rewrite (own_define_new _ _ _ Hown), (update_define_new _ _ _ _ Hown).
    f_equal. unfold tabulate. rewrite map_app. simpl. f_equal.
    + apply map_ext_in. intros k Hk. rewrite inCategory_snoc.
      destruct (String.eqb_spec (cat r) k) as [E'|_].
      * subst k. exfalso. apply Hout. exact (proj1 (firstSeen_In _ _) Hk).
      * now rewrite app_nil_r.
    + rewrite inCategory_snoc, String.eqb_refl.
      now rewrite (inCategory_absent _ _ Hout).
Qed.

(** The grouping object is the one the specification describes, unless a
    category is a name inherited from Object.prototype. *)
Lemma forEach_group_command l :
  Forall (fun r => JS.inherited (cat r) = false) l ->
  forEach (group_command heap) l [] = Some (grouped_spec heap l).
Proof.
  induction l as [|r l IH] using rev_ind; intros H; [reflexivity|].
  apply Forall_app in H. destruct H as [Hl Hr].
  rewrite forEach_app, (IH Hl). simpl.
  inversion Hr; subst. now rewrite group_command_snoc.
Qed.

Lemma forEach_push_group f ks all result :
  (forall k, In k ks -> In k all) ->
  forEach (push_group (tabulate f all)) ks result =
  Some (result ++ flat_map f ks).
Proof.
  revert result. induction ks as [|k t IH]; simpl; intros result H.
  - now rewrite app_nil_r.
  - unfold push_group at 1. unfold JS.get.
    rewrite own_tabulate_in by (apply H; now left).
    rewrite IH by (intros k' Hk'; apply H; now right).
    now rewrite <- app_assoc.
Qed.
End Grouping.

Section Flattening.
Context {Host : Type} (heap : Ref -> CommandItem Host).

Local Abbreviation cat := (categoryOf heap).

Lemma flattenedCommands_key_order (w : World Host) :
  Forall (fun r => JS.inherited (cat r) = false) (commands w) ->
  flattenedCommands heap w =
  Some (flattened_in_key_order heap (commands w)).
Proof.
  intros H. unfold flattenedCommands, groupedCommands.
  rewrite (forEach_group_command heap _ H).
  unfold grouped_spec, JS.Object_keys. rewrite keys_tabulate.
  rewrite forEach_push_group; [reflexivity|].
  intros k. apply Permutation_in, own_property_keys_perm.
Qed.

(** Adding a command in front adds it to the one group of its
    category. *)
Lemma flat_map_insert (G : string -> list Ref) (x : Ref) c ks :
  NoDup ks -> In c ks ->
  Permutation
    (flat_map (fun k => (if String.eqb c k then [x] else []) ++ G k) ks)
    (x :: flat_map G ks).
Proof.
  induction ks as [|k t IH]; simpl; intros Hnd Hin; [contradiction|].
  inversion Hnd as [|? ? Hout Hnd']; subst.
  destruct (String.eqb_spec c k) as [->|Hne].
  - simpl. constructor. apply Permutation_app_head.
    rewrite !flat_map_concat_map.
    erewrite map_ext_in; [reflexivity|]. intros a Ha. simpl.
    destruct (String.eqb_spec k a) as [->|_]; [contradiction | reflexivity].
  - simpl. destruct Hin as [E|Hin]; [congruence|].
    rewrite (IH Hnd' Hin). apply Permutation_sym, Permutation_middle.
Qed.

Lemma inCategory_cons c x l :
  inCategory heap c (x :: l) =
  (if String.eqb (cat x) c then [x] else []) ++ inCategory heap c l.
Proof. unfold inCategory. simpl. now destruct (String.eqb (cat x) c). Qed.

(** Concatenating the groups of a duplicate-free list of keys that
    covers every category rearranges the commands. *)
Lemma flat_map_inCategory_perm l ks :
  NoDup ks -> (forall r, In r l -> In (cat r) ks) ->
  Permutation (flat_map (fun k => inCategory heap k l) ks) l.
Proof.
  intros Hnd. induction l as [|x t IH]; intros Hcov.
  - unfold inCategory. simpl. rewrite flat_map_nil. constructor.
  - rewrite (flat_map_ext _ _ (fun k => inCategory_cons k x t)).
    rewrite flat_map_insert; [|assumption | apply Hcov; now left].
    constructor. apply IH. intros r Hr. apply Hcov. now right.
Qed.

Lemma inCategory_inCategory c k l :
  inCategory heap c (inCategory heap k l) =
  if String.eqb k c then inCategory heap c l else [].
Proof.
  unfold inCategory. destruct (String.eqb_spec k c) as [->|Hne].
  - induction l as [|x t IH]; simpl; [reflexivity|].
    destruct (String.eqb (cat x) c) eqn:E; simpl; rewrite ?E, IH; reflexivity.
  - apply filter_none. intros r Hr. apply filter_In in Hr.
    destruct Hr as [_ Hr]. apply String.eqb_eq in Hr.
    apply String.eqb_neq. congruence.
Qed.

Lemma inCategory_flat_map_keys c l ks :
  NoDup ks ->
  inCategory heap c (flat_map (fun k => inCategory heap k l) ks) =
  if existsb (String.eqb c) ks then inCategory heap c l else [].
Proof.
  induction ks as [|k t IH]; simpl; intros Hnd; [reflexivity|].
  inversion Hnd as [|? ? Hout Hnd']; subst.
  unfold inCategory at 1. rewrite filter_app.
  fold (inCategory heap c (inCategory heap k l)).
  fold (inCategory heap c (flat_map (fun k => inCategory heap k l) t)).
  rewrite inCategory_inCategory, (IH Hnd'), (String.eqb_sym k c).
  destruct (String.eqb_spec c k) as [->|_]; simpl; [|reflexivity].
  destruct (existsb (String.eqb k) t) eqn:E.
  - apply existsb_eqb_In in E. contradiction.
  - apply app_nil_r.
Qed.

(** Within each category the concatenation keeps the input order. *)
Lemma inCategory_flat_map c l ks :
  NoDup ks -> (forall r, In r l -> In (cat r) ks) ->
  inCategory heap c (flat_map (fun k => inCategory heap k l) ks) =
  inCategory heap c l.
Proof.
  intros Hnd Hcov. rewrite inCategory_flat_map_keys by assumption.
  destruct (existsb (String.eqb c) ks) eqn:E; [reflexivity|].
  symmetry. apply filter_none. intros r Hr. apply String.eqb_neq.
  intros Hc. apply Hcov in Hr. rewrite Hc in Hr.
  apply existsb_eqb_In in Hr. congruence.
Qed.

Lemma categories_NoDup l : NoDup (categories heap l).
Proof. apply firstSeen_NoDup. Qed.

Lemma categories_cover l r : In r l -> In (cat r) (categories heap l).
Proof. intros H. apply firstSeen_In. now apply in_map. Qed.

Lemma key_order_NoDup l : NoDup (JS.own_property_keys (categories heap l)).
Proof.
  eapply Permutation_NoDup; [|apply categories_NoDup].
  apply Permutation_sym, own_property_keys_perm.
Qed.

Lemma key_order_cover l r :
  In r l -> In (cat r) (JS.own_property_keys (categories heap l)).
Proof.
  intros H. eapply Permutation_in.
  - apply Permutation_sym, own_property_keys_perm.
  - now apply categories_cover.
Qed.
End Flattening.

(** ** What one listener run does *)

Ltac run_listener :=
  unfold handleKeydown, handleGlobalKeydown, handleMouseEnter, handleInput,
    closePanel, openPanel, executeCommand, scrollToSelectedCommand,
    clearNavigation, bind, read, assign, emit, ret, value;
  simpl.

Section Listeners.
Context {Host : Type} (heap : Ref -> CommandItem Host).

(** The computed lists read the prop [commands] and nothing else. *)
Lemma groupedCommands_commands (w1 w2 : World Host) :
  commands w1 = commands w2 ->
  groupedCommands heap w1 = groupedCommands heap w2.
Proof. unfold groupedCommands. now intros ->. Qed.

Lemma flattenedCommands_commands (w1 w2 : World Host) :
  commands w1 = commands w2 ->
  flattenedCommands heap w1 = flattenedCommands heap w2.
Proof.
  intros H. unfold flattenedCommands.
  now rewrite (groupedCommands_commands w1 w2 H).
Qed.

Lemma closePanel_run (w : World Host) :
  closePanel w =
  mkRun (Normal tt) (mkWorld (commands w) false "" 0%Z false (host w)) [].
Proof. reflexivity. Qed.

Lemma openPanel_run (w : World Host) :
  openPanel w =
  mkRun (Normal tt) (mkWorld (commands w) true "" 0%Z false (host w))
        [FocusInput].
Proof. reflexivity. Qed.

Lemma handleKeydown_closed event (w : World Host) :
  visible w = false ->
  handleKeydown heap event w = mkRun (Normal tt) w [].
Proof. intros H. run_listener. now rewrite H. Qed.

Lemma handleKeydown_Escape event (w : World Host) :
  visible w = true -> key event = "Escape" ->
  handleKeydown heap event w =
  mkRun (Normal tt) (mkWorld (commands w) false "" 0%Z false (host w))
        [PreventDefault].
Proof. intros Hv Hk. run_listener. now rewrite Hv, Hk. Qed.

Lemma handleKeydown_ArrowDown event (w : World Host) flat :
  visible w = true -> key event = "ArrowDown" ->
  flattenedCommands heap w = Some flat ->
  handleKeydown heap event w =
  mkRun (Normal tt)
        (mkWorld (commands w) true (searchQuery w)
                 (Z.min (selectedIndex w + 1) (JS.length flat - 1))
                 true (host w))
        [PreventDefault; ScrollToSelected; ClearNavigationLater].
Proof.
  intros Hv Hk Hf. run_listener. rewrite Hv, Hk. simpl.
  rewrite (flattenedCommands_commands (set_isKeyboardNavigation true w) w
             eq_refl), Hf. simpl.
  unfold set_selectedIndex. simpl. now rewrite Hv.
Qed.

Lemma handleKeydown_ArrowDown_throw event (w : World Host) :
  visible w = true -> key event = "ArrowDown" ->
  flattenedCommands heap w = None ->
  handleKeydown heap event w =
  mkRun Throw (set_isKeyboardNavigation true w) [PreventDefault].
Proof.
  intros Hv Hk Hf. run_listener. rewrite Hv, Hk. simpl.
  now rewrite (flattenedCommands_commands (set_isKeyboardNavigation true w)
                 w eq_refl), Hf.
Qed.

Lemma handleKeydown_ArrowUp event (w : World Host) :
  visible w = true -> key event = "ArrowUp" ->
  handleKeydown heap event w =
  mkRun (Normal tt)
        (mkWorld (commands w) true (searchQuery w)
                 (Z.max (selectedIndex w - 1) 0) true (host w))
        [PreventDefault; ScrollToSelected; ClearNavigationLater].
Proof.
  intros Hv Hk. run_listener. rewrite Hv, Hk. simpl.
  unfold set_selectedIndex. simpl. now rewrite Hv.
Qed.

Lemma handleKeydown_Enter event (w : World Host) flat :
  visible w = true -> key event = "Enter" ->
  flattenedCommands heap w = Some flat ->
  handleKeydown heap event w =
  match JS.at_index flat (selectedIndex w) with
  | Some command =>
      mkRun (Normal tt) (action (heap command) w) [PreventDefault; Call command]
  | None => mkRun (Normal tt) w [PreventDefault]
  end.
Proof.
  intros Hv Hk Hf. run_listener. rewrite Hv, Hk. simpl. rewrite Hf. simpl.
  now destruct (JS.at_index flat (selectedIndex w)).
Qed.

Lemma handleGlobalKeydown_other event (w : World Host) :
  is_hotkey event = false ->
  handleGlobalKeydown event w = mkRun (Normal tt) w [].
Proof. unfold is_hotkey. intros H. run_listener. now rewrite H. Qed.

Lemma handleGlobalKeydown_hotkey event (w : World Host) :
  is_hotkey event = true ->
  handleGlobalKeydown event w =
  if visible w
  then mkRun (Normal tt) (mkWorld (commands w) false "" 0%Z false (host w))
             [PreventDefault]
  else mkRun (Normal tt) (mkWorld (commands w) true "" 0%Z false (host w))
             [PreventDefault; FocusInput].
Proof.
  unfold is_hotkey. intros H. run_listener. rewrite H.
  now destruct (visible w).
Qed.

Lemma watch_searchQuery_same (w w' : World Host) :
  searchQuery w' = searchQuery w -> watch_searchQuery w w' = w'.
Proof.
  intros H. unfold watch_searchQuery. now rewrite H, String.eqb_refl.
Qed.

Lemma watch_searchQuery_reset (w w' : World Host) :
  selectedIndex w' = 0%Z -> watch_searchQuery w w' = w'.
Proof.
  intros H. unfold watch_searchQuery.
  destruct (String.eqb (searchQuery w) (searchQuery w')); [reflexivity|].
  destruct w'. simpl in *. now subst.
Qed.

Lemma not_hotkey_key event k :
  key event = k -> String.eqb k "k" = false -> is_hotkey event = false.
Proof.
  intros <- H. unfold is_hotkey. rewrite H. apply andb_false_r.
Qed.
End Listeners.

(** ** Opening, closing and the hot key *)

Section Lifecycle.
Context {Host : Type} (heap : Ref -> CommandItem Host).

Lemma fire_openPanel (w : World Host) :
  fire openPanel w = mkWorld (commands w) true "" 0%Z false (host w).
Proof. unfold fire. rewrite openPanel_run. now apply watch_searchQuery_reset. Qed.

Lemma fire_closePanel (w : World Host) :
  fire closePanel w = mkWorld (commands w) false "" 0%Z false (host w).
Proof. unfold fire. rewrite closePanel_run. now apply watch_searchQuery_reset. Qed.

Lemma fire_hotkey event (w : World Host) :
  is_hotkey event = true ->
  fire (handleGlobalKeydown event) w =
  mkWorld (commands w) (negb (visible w)) "" 0%Z false (host w).
Proof.
  intros H. unfold fire. rewrite (handleGlobalKeydown_hotkey _ _ H).
  destruct (visible w); now apply watch_searchQuery_reset.
Qed.

Lemma fire_not_hotkey event (w : World Host) :
  is_hotkey event = false -> fire (handleGlobalKeydown event) w = w.
Proof.
  intros H. unfold fire. rewrite (handleGlobalKeydown_other _ _ H).
  now apply watch_searchQuery_same.
Qed.

Lemma keydown_Escape event (w : World Host) :
  visible w = true -> key event = "Escape" ->
  keydown heap event w = mkWorld (commands w) false "" 0%Z false (host w).
Proof.
  intros Hv Hk. unfold keydown.
  rewrite (fire_not_hotkey event) by (now apply (not_hotkey_key _ _ Hk)).
  unfold fire. rewrite (handleKeydown_Escape heap _ _ Hv Hk).
  now apply watch_searchQuery_reset.
Qed.

(** C4.  From every prior state and for every command list: opening the
    panel, through [openPanel] or through the hot key while it is closed,
    leaves it visible with an empty query and the selection at 0; closing
    it, through [closePanel] (which is also the overlay's click
    listener), through Escape in the open panel or through the hot key
    while it is open, leaves it hidden with the query emptied and the
    selection back at 0. *)
Theorem open_and_close_reset (w : World Host) (chord escape : KeyboardEvent) :
  is_hotkey chord = true ->
  key escape = "Escape" ->
  let reset (b : bool) (w' : World Host) :=
    visible w' = b /\ searchQuery w' = "" /\ selectedIndex w' = 0%Z in
  reset true (fire openPanel w) /\
  reset false (fire closePanel w) /\
  reset (negb (visible w)) (fire (handleGlobalKeydown chord) w) /\
  (visible w = true -> reset false (keydown heap escape w)).
Proof.
  intros Hc He reset. unfold reset.
  rewrite fire_openPanel, fire_closePanel, (fire_hotkey _ _ Hc). simpl.
  split; [repeat split|]. split; [repeat split|]. split; [repeat split|].
  intros Hv. rewrite (keydown_Escape _ _ Hv He). repeat split.
Qed.

(** C6.  The document's keydown listener acts exactly on the chord meta
    or ctrl with the key k: on any other event it changes nothing and
    does not even prevent the default; on the chord it prevents the
    default and negates the visibility.  Two chords in a row therefore
    give back the visibility the component started with. *)
Theorem hotkey_toggles_visibility (w : World Host) (event : KeyboardEvent) :
  (is_hotkey event = false ->
     handleGlobalKeydown event w = mkRun (Normal tt) w []) /\
  (is_hotkey event = true ->
     In PreventDefault (effects (handleGlobalKeydown event w)) /\
     visible (fire (handleGlobalKeydown event) w) = negb (visible w)) /\
  (forall again,
     is_hotkey event = true -> is_hotkey again = true ->
     visible (fire (handleGlobalKeydown again)
                   (fire (handleGlobalKeydown event) w)) = visible w).
Proof.
  split; [apply handleGlobalKeydown_other|].
  split.
  - intros H. split.
    + rewrite (handleGlobalKeydown_hotkey _ _ H).
      destruct (visible w); simpl; auto.
    + now rewrite (fire_hotkey _ _ H).
  - intros again H1 H2. rewrite (fire_hotkey _ _ H2), (fire_hotkey _ _ H1).
    simpl. apply negb_involutive.
Qed.

(** C7.  The query is not used for filtering: two states of the component
    with the same command list have the same grouping and the same
    flattened list, whatever their queries (and whatever the rest of
    their state). *)
Theorem query_does_not_filter (w1 w2 : World Host) :
  commands w1 = commands w2 ->
  groupedCommands heap w1 = groupedCommands heap w2 /\
  flattenedCommands heap w1 = flattenedCommands heap w2.
Proof.
  intros H. split.
  - now apply groupedCommands_commands.
  - now apply flattenedCommands_commands.
Qed.

(** C9.  Typing into the search field so that the query becomes a
    different string runs the watcher, which puts the selection back at
    0; the flattened list is the same as before. *)
Theorem query_change_resets_selection (w : World Host) (text : string) :
  text <> searchQuery w ->
  let w' := fire (handleInput text) w in
  searchQuery w' = text /\
  selectedIndex w' = 0%Z /\
  flattenedCommands heap w' = flattenedCommands heap w.
Proof.
  intros H w'. subst w'. unfold fire, handleInput, assign, watch_searchQuery.
  simpl. destruct (String.eqb_spec (searchQuery w) text) as [E|_].
  - congruence.
  - repeat split.
Qed.
End Lifecycle.

(** ** Executing a command *)

Section Execution.
Context {Host : Type} (heap : Ref -> CommandItem Host).

Lemma visible_watch_searchQuery (w w' : World Host) :
  visible (watch_searchQuery w w') = visible w'.
Proof.
  unfold watch_searchQuery.
  now destruct (String.eqb (searchQuery w) (searchQuery w')).
Qed.

Lemma fire_framed (listener : M Host unit) (w : World Host) :
  widget (world (listener w)) = widget w ->
  fire listener w = world (listener w).
Proof.
  intros H. unfold fire. apply watch_searchQuery_same.
  unfold widget in H. congruence.
Qed.

Lemma handleKeydown_Enter_at event (w : World Host) flat command :
  visible w = true -> key event = "Enter" ->
  flattenedCommands heap w = Some flat ->
  JS.at_index flat (selectedIndex w) = Some command ->
  handleKeydown heap event w =
  mkRun (Normal tt) (action (heap command) w) [PreventDefault; Call command].
Proof.
  intros Hv Hk Hf Hat. rewrite (handleKeydown_Enter heap _ _ _ Hv Hk Hf).
  now rewrite Hat.
Qed.

(** C1, as the component has it.  With the selection on a command of the
    flattened list, Enter in the open panel prevents the default and
    calls the action of exactly that command; a click on a command's item
    calls that command's action.  In both cases the component does
    nothing after the call: the state it is left in is the state the
    action returns, so the panel is hidden afterwards exactly when the
    action itself cleared the visibility binding, and the component
    resets neither the query nor the selection. *)
Theorem execute_is_the_action
  (w : World Host) (event : KeyboardEvent) (flat : list Ref) (command : Ref) :
  visible w = true ->
  key event = "Enter" ->
  flattenedCommands heap w = Some flat ->
  JS.at_index flat (selectedIndex w) = Some command ->
  handleKeydown heap event w =
    mkRun (Normal tt) (action (heap command) w)
          [PreventDefault; Call command] /\
  executeCommand heap command w =
    mkRun (Normal tt) (action (heap command) w) [Call command] /\
  (visible (fire (handleKeydown heap event) w) = false <->
   visible (action (heap command) w) = false) /\
  (visible (fire (executeCommand heap command) w) = false <->
   visible (action (heap command) w) = false).
Proof.
  intros Hv Hk Hf Hat.
  pose proof (handleKeydown_Enter_at _ _ _ _ Hv Hk Hf Hat) as Hrun.
  split; [exact Hrun|]. split; [reflexivity|].
  unfold fire. rewrite !visible_watch_searchQuery, Hrun. simpl.
  split; reflexivity.
Qed.

(** C10.  Invoking a command calls the action of that command and no
    other, and the component itself writes nothing.  For Enter on the
    selected command and for a click on the item of any command, the
    listener's run is the call of that one action and ends in the state
    the action returns; the state after the event is that state (after the
    watcher, which only acts if the action changed the query).  So when
    the action leaves [visible], [searchQuery], [selectedIndex] and
    [isKeyboardNavigation] alone they are all unchanged and the panel
    stays open, and the panel is hidden after the event exactly when the
    action hid it through the visibility binding. *)
Theorem invoking_frames_widget_state
  (w : World Host) (event : KeyboardEvent) (flat : list Ref)
  (command clicked : Ref) :
  visible w = true ->
  key event = "Enter" ->
  flattenedCommands heap w = Some flat ->
  JS.at_index flat (selectedIndex w) = Some command ->
  let after_enter := fire (handleKeydown heap event) w in
  let after_click := fire (executeCommand heap clicked) w in
  (handleKeydown heap event w =
     mkRun (Normal tt) (action (heap command) w)
           [PreventDefault; Call command] /\
   executeCommand heap clicked w =
     mkRun (Normal tt) (action (heap clicked) w) [Call clicked]) /\
  (called (handleKeydown heap event) w = [command] /\
   called (executeCommand heap clicked) w = [clicked]) /\
  (after_enter = watch_searchQuery w (action (heap command) w) /\
   after_click = watch_searchQuery w (action (heap clicked) w)) /\
  (visible after_enter = visible (action (heap command) w) /\
   visible after_click = visible (action (heap clicked) w)) /\
  (searchQuery (action (heap command) w) = searchQuery w ->
   after_enter = action (heap command) w) /\
  (searchQuery (action (heap clicked) w) = searchQuery w ->
   after_click = action (heap clicked) w) /\
  (widget (action (heap command) w) = widget w ->
   widget after_enter = widget w) /\
  (widget (action (heap clicked) w) = widget w ->
   widget after_click = widget w).
Proof.
  intros Hv Hk Hf Hat after_enter after_click.
  pose proof (handleKeydown_Enter_at _ _ _ _ Hv Hk Hf Hat) as Hrun.
  assert (Henter : after_enter = watch_searchQuery w (action (heap command) w)).
  { unfold after_enter, fire. now rewrite Hrun. }
  assert (Hclick : after_click = watch_searchQuery w (action (heap clicked) w))
    by reflexivity.
  split; [split; [exact Hrun | reflexivity]|].
  split; [unfold called; rewrite Hrun; split; reflexivity|].
  split; [split; [exact Henter | exact Hclick]|].
  split.
  { rewrite Henter, Hclick, !visible_watch_searchQuery. split; reflexivity. }
  split.
  { intros Hq. rewrite Henter. now apply watch_searchQuery_same. }
  split.
  { intros Hq. rewrite Hclick. now apply watch_searchQuery_same. }
  split.
  - intros Hframe. rewrite Henter, watch_searchQuery_same; [exact Hframe|].
    unfold widget in Hframe. congruence.
  - intros Hframe. rewrite Hclick, watch_searchQuery_same; [exact Hframe|].
    unfold widget in Hframe. congruence.
Qed.
End Execution.

(** ** Keyboard navigation *)

Section Navigation.
Context {Host : Type} (heap : Ref -> CommandItem Host).

Lemma keydown_ArrowDown event (w : World Host) flat :
  visible w = true -> key event = "ArrowDown" ->
  flattenedCommands heap w = Some flat ->
  keydown heap event w =
  mkWorld (commands w) true (searchQuery w)
          (Z.min (selectedIndex w + 1) (JS.length flat - 1)) true (host w).
Proof.
  intros Hv Hk Hf. unfold keydown.
  rewrite (fire_not_hotkey event) by (now apply (not_hotkey_key _ _ Hk)).
  unfold fire. rewrite (handleKeydown_ArrowDown heap _ _ _ Hv Hk Hf).
  now apply watch_searchQuery_same.
Qed.

Lemma keydown_ArrowUp event (w : World Host) :
  visible w = true -> key event = "ArrowUp" ->
  keydown heap event w =
  mkWorld (commands w) true (searchQuery w)
          (Z.max (selectedIndex w - 1) 0) true (host w).
Proof.
  intros Hv Hk. unfold keydown.
  rewrite (fire_not_hotkey event) by (now apply (not_hotkey_key _ _ Hk)).
  unfold fire. rewrite (handleKeydown_ArrowUp heap _ _ Hv Hk).
  now apply watch_searchQuery_same.
Qed.

Lemma press_snoc events event (w : World Host) :
  press heap (events ++ [event]) w = keydown heap event (press heap events w).
Proof. unfold press. now rewrite fold_left_app. Qed.

(** Arrow keys keep the panel open and the command list in place. *)
Lemma press_arrows_open events (w : World Host) flat :
  visible w = true -> flattenedCommands heap w = Some flat ->
  Forall is_arrow events ->
  visible (press heap events w) = true /\
  flattenedCommands heap (press heap events w) = Some flat.
Proof.
  intros Hv Hf. induction events as [|e es IH] using rev_ind; intros Ha.
  - now split.
  - apply Forall_app in Ha. destruct Ha as [Hes He].
    inversion He as [|? ? Harrow _]; subst.
    destruct (IH Hes) as [Hv' Hf']. rewrite press_snoc.
    destruct Harrow as [Hk|Hk].
    + rewrite (keydown_ArrowDown _ _ _ Hv' Hk Hf'). split; [reflexivity|].
      rewrite <- Hf'. now apply flattenedCommands_commands.
    + rewrite (keydown_ArrowUp _ _ Hv' Hk). split; [reflexivity|].
      rewrite <- Hf'. now apply flattenedCommands_commands.
Qed.

Lemma length_pos {A} (l : list A) : l <> [] -> (0 < JS.length l)%Z.
Proof. destruct l; [congruence|]. unfold JS.length. simpl. lia. Qed.

(** C2, for the lists on which the interval is not empty.  Take an open
    panel over a non-empty flattened list and any run of ArrowDown and
    ArrowUp presses.  If the selection starts inside [0, count-1], as it
    does right after opening, it ends inside [0, count-1]; wherever it
    starts, it is at most count-1 after a run that ends with ArrowDown.
    On every list, it is at least 0 after a run that ends with
    ArrowUp. *)
Theorem arrows_stay_in_range
  (w : World Host) (flat : list Ref) (events : list KeyboardEvent) :
  visible w = true ->
  flattenedCommands heap w = Some flat ->
  Forall is_arrow events ->
  let count := JS.length flat in
  let w' := press heap events w in
  (flat <> [] ->
   (0 <= selectedIndex w <= count - 1)%Z ->
   (0 <= selectedIndex w' <= count - 1)%Z) /\
  (flat <> [] ->
   forall before event,
     events = before ++ [event] -> key event = "ArrowDown" ->
     (selectedIndex w' <= count - 1)%Z) /\
  (forall before event,
     events = before ++ [event] -> key event = "ArrowUp" ->
     (0 <= selectedIndex w')%Z).
Proof.
  intros Hv Hf Ha count w'. subst count w'. split; [|split].
  - intros Hne Hstart. pose proof (length_pos flat Hne) as Hpos.
    induction events as [|e es IH] using rev_ind; [exact Hstart|].
    apply Forall_app in Ha. destruct Ha as [Hes He].
    inversion He as [|? ? Harrow _]; subst.
    destruct (press_arrows_open es w flat Hv Hf Hes) as [Hv' Hf'].
    specialize (IH Hes). rewrite press_snoc.
    destruct Harrow as [Hk|Hk].
    + rewrite (keydown_ArrowDown _ _ _ Hv' Hk Hf'). simpl. lia.
    + rewrite (keydown_ArrowUp _ _ Hv' Hk). simpl. lia.
  - intros Hne before event -> Hk.
    apply Forall_app in Ha. destruct Ha as [Hes _].
    destruct (press_arrows_open before w flat Hv Hf Hes) as [Hv' Hf'].
    rewrite press_snoc, (keydown_ArrowDown _ _ _ Hv' Hk Hf'). simpl. lia.
  - intros before event -> Hk.
    apply Forall_app in Ha. destruct Ha as [Hes _].
    destruct (press_arrows_open before w flat Hv Hf Hes) as [Hv' _].
    rewrite press_snoc, (keydown_ArrowUp _ _ Hv' Hk). simpl. lia.
Qed.

Lemma at_index_nil {A} (i : Z) : JS.at_index (@nil A) i = None.
Proof.
  unfold JS.at_index. destruct (i <? 0)%Z; [reflexivity|].
  now destruct (Z.to_nat i).
Qed.

(** On an empty list no key calls an action, and Enter changes nothing
    at all. *)
Lemma empty_list_calls_nothing event (w : World Host) :
  visible w = true -> flattenedCommands heap w = Some [] ->
  called (handleKeydown heap event) w = [] /\
  (key event = "Enter" -> keydown heap event w = w).
Proof.
  intros Hv Hf. split.
  - unfold called.
    destruct (String.eqb (key event) "Escape") eqn:E1.
    { apply String.eqb_eq in E1.
      now rewrite (handleKeydown_Escape heap _ _ Hv E1). }
    destruct (String.eqb (key event) "ArrowDown") eqn:E2.
    { apply String.eqb_eq in E2.
      now rewrite (handleKeydown_ArrowDown heap _ _ _ Hv E2 Hf). }
    destruct (String.eqb (key event) "ArrowUp") eqn:E3.
    { apply String.eqb_eq in E3.
      now rewrite (handleKeydown_ArrowUp heap _ _ Hv E3). }
    destruct (String.eqb (key event) "Enter") eqn:E4.
    { apply String.eqb_eq in E4.
      now rewrite (handleKeydown_Enter heap _ _ _ Hv E4 Hf), at_index_nil. }
    run_listener. now rewrite Hv, E1, E2, E3, E4.
  - intros Hk. unfold keydown.
    rewrite (fire_not_hotkey event) by (now apply (not_hotkey_key _ _ Hk)).
    unfold fire. rewrite (handleKeydown_Enter heap _ _ _ Hv Hk Hf).
    rewrite at_index_nil. now apply watch_searchQuery_same.
Qed.
End Navigation.

(** ** Looking a command up in the flattened list *)

Section Lookup.
Context {Host : Type} (heap : Ref -> CommandItem Host).

(** indexOf finds the first position that holds the very object. *)
Lemma indexOf_first (flat : list Ref) (a : Ref) (i : nat) :
  nth_error flat i = Some a ->
  exists k,
    JS.indexOf flat a = Z.of_nat k /\ k <= i /\
    nth_error flat k = Some a /\
    forall m, m < k -> nth_error flat m <> Some a.
Proof.
  revert i. induction flat as [|y t IH]; intros i Hi.
  - destruct i; discriminate.
  - simpl. destruct (Nat.eqb_spec y a) as [->|Hne].
    + exists 0. repeat split; [lia|]. intros m Hm. lia.
    + destruct i as [|i]; [simpl in Hi; congruence|].
      destruct (IH i Hi) as (k & Hk & Hle & Hnth & Hmin).
      exists (S k). rewrite Hk.
      replace (Z.of_nat k <? 0)%Z with false by (symmetry; apply Z.ltb_ge; lia).
      repeat split; [lia | lia | exact Hnth |].
      intros [|m] Hm; simpl; [congruence|]. apply Hmin. lia.
Qed.

Lemma fire_handleMouseEnter (w : World Host) flat command :
  isKeyboardNavigation w = false ->
  flattenedCommands heap w = Some flat ->
  selectedIndex (fire (handleMouseEnter heap command) w) =
  JS.indexOf flat command.
Proof.
  intros Hn Hf. unfold fire. run_listener. rewrite Hn, Hf. simpl.
  unfold watch_searchQuery. simpl. now rewrite String.eqb_refl.
Qed.

(** C8, as the component has it.  The lookup compares objects, not ids:
    hovering an entry of the flattened list selects the first position
    that holds that very object.  Two distinct command objects therefore
    always select different positions, whatever their ids; and when one
    object occurs at two positions, hovering it never selects the later
    one. *)
Theorem hover_selects_by_identity (w : World Host) (flat : list Ref) :
  isKeyboardNavigation w = false ->
  flattenedCommands heap w = Some flat ->
  let hover command := selectedIndex (fire (handleMouseEnter heap command) w) in
  (forall i a,
     nth_error flat i = Some a ->
     exists k, hover a = Z.of_nat k /\ k <= i /\ nth_error flat k = Some a /\
               forall m, m < k -> nth_error flat m <> Some a) /\
  (forall i j a b,
     nth_error flat i = Some a -> nth_error flat j = Some b ->
     a <> b -> hover a <> hover b) /\
  (forall i j a,
     i < j -> nth_error flat i = Some a -> nth_error flat j = Some a ->
     hover a <> Z.of_nat j).
Proof.
  intros Hn Hf hover. subst hover. simpl. split; [|split].
  - intros i a Hi. rewrite (fire_handleMouseEnter _ _ _ Hn Hf).
    now apply indexOf_first with (i := i).
  - intros i j a b Hi Hj Hab.
    rewrite !(fire_handleMouseEnter _ _ _ Hn Hf).
    destruct (indexOf_first _ _ _ Hi) as (k & Hk & _ & Hka & _).
    destruct (indexOf_first _ _ _ Hj) as (k' & Hk' & _ & Hkb & _).
    rewrite Hk, Hk'. intros E. apply Nat2Z.inj in E. subst k'. congruence.
  - intros i j a Hij Hi Hj. rewrite (fire_handleMouseEnter _ _ _ Hn Hf).
    destruct (indexOf_first _ _ _ Hi) as (k & Hk & Hle & _).
    rewrite Hk. lia.
Qed.
End Lookup.

(** ** Grouping and flattening *)

Section Order.
Context {Host : Type} (heap : Ref -> CommandItem Host).

(** C5, as the component has it.  Provided no category is a name that
    objects inherit from Object.prototype, the grouping maps each
    category (with "Other" for a missing or empty one), in first-seen
    order, to its commands in input order; the flattened list
    concatenates the groups in the key order of the grouping object,
    which puts categories that are array indices first, in ascending
    numeric order, and the other categories after them in first-seen
    order.  The flattened list is a permutation of the input, within
    each category it keeps the input order, and when no category is an
    array index the categories appear in first-seen order. *)
Theorem grouping_preserves_order (w : World Host) :
  Forall (fun r => JS.inherited (categoryOf heap r) = false) (commands w) ->
  groupedCommands heap w = Some (grouped_spec heap (commands w)) /\
  exists flat,
    flattenedCommands heap w = Some flat /\
    flat = flattened_in_key_order heap (commands w) /\
    Permutation flat (commands w) /\
    (forall c, inCategory heap c flat = inCategory heap c (commands w)) /\
    (Forall (fun r => JS.is_array_index (categoryOf heap r) = false)
            (commands w) ->
     flat = flattened_spec heap (commands w)).
Proof.
  intros H. split; [now apply forEach_group_command|].
  exists (flattened_in_key_order heap (commands w)).
  split; [now apply flattenedCommands_key_order|].
  split; [reflexivity|]. unfold flattened_in_key_order. split; [|split].
  - apply flat_map_inCategory_perm.
    + apply key_order_NoDup.
    + apply key_order_cover.
  - intros c. apply inCategory_flat_map.
    + apply key_order_NoDup.
    + apply key_order_cover.
  - intros Hplain. unfold flattened_spec.
    rewrite own_property_keys_plain; [reflexivity|].
    intros k Hk. apply categories_In, in_map_iff in Hk.
    destruct Hk as (r & <- & Hr).
    rewrite Forall_forall in Hplain. now apply Hplain.
Qed.
End Order.

(** ** The properties at concrete inputs *)

Import Keys.

(** The scenario of the specification on the playground: opening selects
    "new-file", two ArrowDown presses select "settings", Enter calls its
    action, and that action hides the panel. *)
Example playground_scenario :
  let w1 := fire (handleGlobalKeydown Cmd_K) Playground.closed in
  let w2 := press Playground.heap [ArrowDown; ArrowDown] w1 in
  flattenedCommands Playground.heap w1 = Some [0; 1; 2] /\
  widget w1 = (true, "", 0%Z, false) /\
  selectedIndex w2 = 2%Z /\
  called (handleKeydown Playground.heap Enter) w2 = [2] /\
  widget (keydown Playground.heap Enter w2) = (false, "", 2%Z, true).
Proof. vm_compute. repeat split. Qed.

(** A category named like a member of Object.prototype makes an
    evaluation of the getter of groupedCommands throw. *)
Example inherited_category_throws :
  groupedCommands Journal.heap (Journal.opened [0; 4]) = None.
Proof. reflexivity. Qed.

(** C1 fails as stated: with the selection on "help", whose action only
    logs, Enter calls that action and the panel stays open, with the query
    and the selection as they were. *)
Lemma enter_leaves_panel_open :
  let w := Journal.browsing [0; 3] in
  let w' := keydown Journal.heap Enter w in
  flattenedCommands Journal.heap w = Some [0; 3] /\
  called (handleKeydown Journal.heap Enter) w = [3] /\
  widget w' = (true, "ab", 1%Z, false) /\
  ~ (visible w' = false /\ searchQuery w' = "" /\ selectedIndex w' = 0%Z).
Proof.
  vm_compute. repeat split. intros [H _]. discriminate H.
Qed.

Lemma execute_is_the_action_witness :
  let w := Playground.open_at 2 in
  (visible w = true /\ key Enter = "Enter" /\
   flattenedCommands Playground.heap w = Some [0; 1; 2] /\
   JS.at_index [0; 1; 2] (selectedIndex w) = Some 2) /\
  handleKeydown Playground.heap Enter w =
    mkRun (Normal tt) (Playground.hide w) [PreventDefault; Call 2] /\
  (visible (fire (handleKeydown Playground.heap Enter) w) = false <->
   visible (Playground.hide w) = false).
Proof.
  intros w.
  assert (H : visible w = true /\ key Enter = "Enter" /\
              flattenedCommands Playground.heap w = Some [0; 1; 2] /\
              JS.at_index [0; 1; 2] (selectedIndex w) = Some 2)
    by (repeat split; reflexivity).
  split; [exact H|].
  destruct H as (Hv & Hk & Hf & Hat).
  destruct (execute_is_the_action Playground.heap w Enter [0; 1; 2] 2
              Hv Hk Hf Hat) as (Hrun & _ & Hclosed & _).
  split; [exact Hrun | exact Hclosed].
Defined.

(** C2 fails as stated: on the empty list one ArrowDown takes the
    selection of the freshly opened panel from 0 to -1, outside
    [0, count-1] and below 0. *)
Lemma arrow_down_on_empty_list_leaves_range :
  let w := Journal.opened [] in
  let w' := press Journal.heap [ArrowDown] w in
  flattenedCommands Journal.heap w = Some [] /\
  selectedIndex w = 0%Z /\
  selectedIndex w' = (-1)%Z /\
  ~ (0 <= selectedIndex w' <= JS.length (@nil Ref) - 1)%Z.
Proof.
  vm_compute. repeat split. intros [H _]. apply H. reflexivity.
Qed.

Lemma arrows_stay_in_range_witness :
  let w := Playground.open_at 0 in
  let events := [ArrowDown; ArrowDown; ArrowDown; ArrowUp; ArrowDown] in
  (visible w = true /\
   flattenedCommands Playground.heap w = Some [0; 1; 2] /\
   Forall is_arrow events /\ [0; 1; 2] <> @nil Ref /\
   (0 <= selectedIndex w <= JS.length [0; 1; 2] - 1)%Z) /\
  (0 <= selectedIndex (press Playground.heap events w)
     <= JS.length [0; 1; 2] - 1)%Z.
Proof.
  intros w events.
  assert (Ha : Forall is_arrow events).
  { unfold events, is_arrow.
    repeat (apply Forall_cons;
            [(left; reflexivity) || (right; reflexivity)|]).
    apply Forall_nil. }
  assert (Hne : [0; 1; 2] <> @nil Ref) by discriminate.
  assert (Hstart : (0 <= selectedIndex w <= JS.length [0; 1; 2] - 1)%Z).
  { unfold JS.length. simpl. lia. }
  split; [repeat split; solve [reflexivity | assumption | apply Hstart]|].
  destruct (arrows_stay_in_range Playground.heap w [0; 1; 2] events
              eq_refl eq_refl Ha) as (Hrange & _).
  exact (Hrange Hne Hstart).
Defined.

(** C3 at the input where the component departs from it: the list is
    empty, the panel has just opened, and ArrowDown moves the selection
    from 0 to -1 (and raises the keyboard-navigation flag); no action is
    called. *)
Lemma arrow_down_moves_selection_on_empty_list :
  let w := Journal.opened [] in
  let w' := keydown Journal.heap ArrowDown w in
  flattenedCommands Journal.heap w = Some [] /\
  widget w = (true, "", 0%Z, false) /\
  widget w' = (true, "", (-1)%Z, true) /\
  called (handleKeydown Journal.heap ArrowDown) w = [].
Proof. vm_compute. repeat split. Qed.

Lemma open_and_close_reset_witness :
  let w := Journal.browsing [0; 3] in
  (is_hotkey Cmd_K = true /\ key Escape = "Escape" /\ visible w = true) /\
  widget (fire openPanel w) = (true, "", 0%Z, false) /\
  widget (fire closePanel w) = (false, "", 0%Z, false) /\
  widget (fire (handleGlobalKeydown Cmd_K) w) = (false, "", 0%Z, false) /\
  widget (keydown Journal.heap Escape w) = (false, "", 0%Z, false).
Proof.
  intros w. split; [repeat split|].
  destruct (open_and_close_reset Journal.heap w Cmd_K Escape eq_refl eq_refl)
    as (Hopen & Hclose & Hchord & Hesc).
  specialize (Hesc eq_refl). unfold widget.
  destruct Hopen as (-> & -> & ->).
  destruct Hclose as (-> & -> & ->).
  destruct Hchord as (-> & -> & ->).
  destruct Hesc as (-> & -> & ->).
  repeat split.
Defined.

(** C5 fails as stated: "2024" is first seen after "Recent", but as an
    array index it is listed first by Object.keys, so the flattened list
    starts with the archive command. *)
Lemma index_category_breaks_first_seen_order :
  let w := Journal.opened [0; 1] in
  categories Journal.heap (commands w) = ["Recent"; "2024"] /\
  flattened_spec Journal.heap (commands w) = [0; 1] /\
  flattenedCommands Journal.heap w = Some [1; 0] /\
  flattenedCommands Journal.heap w
    <> Some (flattened_spec Journal.heap (commands w)).
Proof. vm_compute. repeat split. discriminate. Qed.

Lemma grouping_preserves_order_witness :
  let w := Playground.closed in
  Forall (fun r => JS.inherited (categoryOf Playground.heap r) = false)
         (commands w) /\
  groupedCommands Playground.heap w
    = Some [("File", [0; 1]); ("System", [2])] /\
  flattenedCommands Playground.heap w
    = Some (flattened_spec Playground.heap (commands w)).
Proof.
  intros w.
  assert (H : Forall (fun r => JS.inherited (categoryOf Playground.heap r)
                               = false) (commands w))
    by (repeat constructor).
  split; [exact H|].
  destruct (grouping_preserves_order Playground.heap w H)
    as (Hg & flat & Hf & _ & _ & _ & Hplain).
  split; [exact Hg|].
  rewrite Hf. f_equal. apply Hplain. repeat constructor.
Defined.

Lemma hotkey_toggles_visibility_witness :
  let w := Playground.closed in
  (is_hotkey Cmd_K = true /\ is_hotkey Ctrl_K = true /\
   is_hotkey Enter = false) /\
  visible (fire (handleGlobalKeydown Cmd_K) w) = true /\
  visible (fire (handleGlobalKeydown Ctrl_K)
                (fire (handleGlobalKeydown Cmd_K) w)) = visible w /\
  handleGlobalKeydown Enter w = mkRun (Normal tt) w [].
Proof.
  intros w. split; [repeat split|].
  destruct (hotkey_toggles_visibility w Cmd_K) as (_ & Hchord & Htwice).
  destruct (hotkey_toggles_visibility w Enter) as (Hother & _).
  split; [exact (proj2 (Hchord eq_refl))|].
  split; [exact (Htwice Ctrl_K eq_refl eq_refl) | exact (Hother eq_refl)].
Defined.

Lemma query_does_not_filter_witness :
  let w1 := Journal.browsing [0; 1; 3] in
  let w2 := Journal.opened [0; 1; 3] in
  (commands w1 = commands w2 /\ searchQuery w1 <> searchQuery w2) /\
  groupedCommands Journal.heap w1 = groupedCommands Journal.heap w2 /\
  flattenedCommands Journal.heap w1 = flattenedCommands Journal.heap w2.
Proof.
  intros w1 w2. split; [split; [reflexivity | discriminate]|].
  exact (query_does_not_filter Journal.heap w1 w2 eq_refl).
Defined.

(** C8 fails as stated: no command list has two distinct command objects,
    with equal ids or not, such that looking up the later one gives the
    position of the earlier one. *)
Lemma distinct_commands_are_never_confused :
  ~ exists (Host : Type) (heap : Ref -> CommandItem Host) (w : World Host)
           (flat : list Ref) (i j : nat) (a b : Ref),
      flattenedCommands heap w = Some flat /\
      i < j /\ nth_error flat i = Some a /\ nth_error flat j = Some b /\
      a <> b /\ id (heap a) = id (heap b) /\
      JS.indexOf flat b = Z.of_nat i.
Proof.
  intros (Host & heap & w & flat & i & j & a & b
          & _ & _ & Hi & Hj & Hab & _ & E).
  destruct (indexOf_first flat b j Hj) as (k & Hk & _ & Hkb & _).
  rewrite Hk in E. apply Nat2Z.inj in E. subst k. congruence.
Qed.

Lemma hover_selects_by_identity_witness :
  let w := Journal.opened [0; 2; 0] in
  let hover command :=
    selectedIndex (fire (handleMouseEnter Journal.heap command) w) in
  (isKeyboardNavigation w = false /\
   flattenedCommands Journal.heap w = Some [0; 2; 0] /\
   id (Journal.heap 0) = id (Journal.heap 2)) /\
  hover 0 <> hover 2 /\
  hover 0 <> 2%Z.
Proof.
  intros w hover. split; [repeat split|].
  destruct (hover_selects_by_identity Journal.heap w [0; 2; 0]
              eq_refl eq_refl) as (_ & Hdistinct & Hsame).
  split.
  - apply (Hdistinct 0 1 0 2); [reflexivity | reflexivity | discriminate].
  - apply (Hsame 0 2 0); [lia | reflexivity | reflexivity].
Defined.

Lemma query_change_resets_selection_witness :
  let w := Journal.browsing [0; 3] in
  ("abc" <> searchQuery w /\ selectedIndex w = 1%Z) /\
  selectedIndex (fire (handleInput "abc") w) = 0%Z /\
  flattenedCommands Journal.heap (fire (handleInput "abc") w)
    = flattenedCommands Journal.heap w.
Proof.
  intros w.
  assert (H : "abc" <> searchQuery w) by discriminate.
  split; [split; [exact H | reflexivity]|].
  destruct (query_change_resets_selection Journal.heap w "abc" H)
    as (_ & Hidx & Hflat).
  split; [exact Hidx | exact Hflat].
Defined.

Lemma invoking_frames_widget_state_witness :
  let w := Journal.browsing [0; 3] in
  (visible w = true /\ key Enter = "Enter" /\
   flattenedCommands Journal.heap w = Some [0; 3] /\
   JS.at_index [0; 3] (selectedIndex w) = Some 3 /\
   searchQuery (action (Journal.heap 3) w) = searchQuery w /\
   widget (action (Journal.heap 0) w) = widget w) /\
  handleKeydown Journal.heap Enter w =
    mkRun (Normal tt) (action (Journal.heap 3) w) [PreventDefault; Call 3] /\
  called (executeCommand Journal.heap 0) w = [0] /\
  fire (handleKeydown Journal.heap Enter) w = action (Journal.heap 3) w /\
  widget (fire (executeCommand Journal.heap 0) w) = widget w.
Proof.
  intros w. split; [repeat split|].
  destruct (invoking_frames_widget_state Journal.heap w Enter [0; 3] 3 0
              eq_refl eq_refl eq_refl eq_refl)
    as ((Hrun & _) & (_ & Hcalled) & _ & _ & Henter & _ & _ & Hclick).
  split; [exact Hrun|]. split; [exact Hcalled|].
  split; [exact (Henter eq_refl) | exact (Hclick eq_refl)].
Defined.

(** ** When the computed lists throw *)

Section Throwing.
Context {Host : Type} (heap : Ref -> CommandItem Host).

Local Abbreviation cat := (categoryOf heap).

Lemma first_inherited (l : list Ref) :
  Exists (fun r => JS.inherited (cat r) = true) l ->
  exists before r after,
    l = before ++ r :: after /\
    Forall (fun r => JS.inherited (cat r) = false) before /\
    JS.inherited (cat r) = true.
Proof.
  induction l as [|x t IH]; intros H; [inversion H|].
  destruct (JS.inherited (cat x)) eqn:E.
  - exists [], x, t. repeat split; [constructor | exact E].
  - inversion H as [? ? Hx|? ? Ht]; subst; [congruence|].
    destruct (IH Ht) as (before & r & after & -> & Hgood & Hbad).
    exists (x :: before), r, after. repeat split; [|exact Hbad].
    now constructor.
Qed.

Lemma group_command_inherited (l : list Ref) (r : Ref) :
  Forall (fun r => JS.inherited (cat r) = false) l ->
  JS.inherited (cat r) = true ->
  group_command heap (grouped_spec heap l) r = None.
Proof.
  intros Hgood Hbad. unfold group_command, grouped_spec.
  assert (Hget : JS.get (tabulate (fun c => inCategory heap c l)
                           (categories heap l)) (cat r) = JS.Inherited).
  { unfold JS.get. rewrite own_tabulate_out, Hbad; [reflexivity|].
    intros Hin. apply categories_In, in_map_iff in Hin.
    destruct Hin as (r' & E & Hr'). rewrite Forall_forall in Hgood.
    specialize (Hgood r' Hr'). congruence. }
  now rewrite Hget, Hget.
Qed.

Lemma forEach_group_command_throws (l : list Ref) :
  Exists (fun r => JS.inherited (cat r) = true) l ->
  forEach (group_command heap) l [] = None.
Proof.
  intros H. destruct (first_inherited l H) as (before & r & after & -> & Hgood & Hbad).
  rewrite forEach_app, (forEach_group_command heap _ Hgood). simpl.
  now rewrite (group_command_inherited _ _ Hgood Hbad).
Qed.

Lemma good_or_inherited (l : list Ref) :
  Forall (fun r => JS.inherited (cat r) = false) l \/
  Exists (fun r => JS.inherited (cat r) = true) l.
Proof.
  induction l as [|x t [IH|IH]].
  - left. constructor.
  - destruct (JS.inherited (cat x)) eqn:E.
    + right. now constructor.
    + left. now constructor.
  - right. now constructor 2.
Qed.

(** X1.  One evaluation of the getter of groupedCommands throws exactly
    when some command's category (after the default "Other") is a
    property name that objects inherit from Object.prototype, and returns
    a grouping exactly when no category is such a name.  The statement is
    about the getter, which reads the prop [commands] only; which reads of
    the computed evaluate it is Vue's matter. *)
Theorem groupedCommands_getter_throws_iff (w : World Host) :
  (groupedCommands heap w = None <->
   Exists (fun r => JS.inherited (cat r) = true) (commands w)) /\
  ((exists groups, groupedCommands heap w = Some groups) <->
   Forall (fun r => JS.inherited (cat r) = false) (commands w)).
Proof.
  split; split.
  - intros Hnone. destruct (good_or_inherited (commands w)) as [Hgood|Hbad];
      [|exact Hbad].
    unfold groupedCommands in Hnone.
    rewrite (forEach_group_command heap _ Hgood) in Hnone. discriminate.
  - apply forEach_group_command_throws.
  - intros (groups & Hg).
    destruct (good_or_inherited (commands w)) as [Hgood|Hbad]; [exact Hgood|].
    unfold groupedCommands in Hg.
    rewrite (forEach_group_command_throws _ Hbad) in Hg. discriminate.
  - intros Hgood. exists (grouped_spec heap (commands w)).
    now apply forEach_group_command.
Qed.

Lemma flattened_good (w : World Host) flat :
  flattenedCommands heap w = Some flat ->
  Forall (fun r => JS.inherited (cat r) = false) (commands w).
Proof.
  intros Hf. destruct (good_or_inherited (commands w)) as [Hgood|Hbad];
    [exact Hgood|].
  unfold flattenedCommands, groupedCommands in Hf.
  rewrite (forEach_group_command_throws _ Hbad) in Hf. discriminate.
Qed.

Lemma flattened_value (w : World Host) flat :
  flattenedCommands heap w = Some flat ->
  flat = flattened_in_key_order heap (commands w).
Proof.
  intros Hf. pose proof (flattened_good w flat Hf) as Hgood.
  rewrite (flattenedCommands_key_order heap w Hgood) in Hf. congruence.
Qed.

Lemma flattened_perm (w : World Host) flat :
  flattenedCommands heap w = Some flat -> Permutation flat (commands w).
Proof.
  intros Hf. rewrite (flattened_value w flat Hf).
  apply flat_map_inCategory_perm.
  - apply key_order_NoDup.
  - apply key_order_cover.
Qed.

Lemma flattened_length (w : World Host) flat :
  flattenedCommands heap w = Some flat ->
  JS.length flat = JS.length (commands w).
Proof.
  intros Hf. unfold JS.length. f_equal.
  apply Permutation_length, (flattened_perm w flat Hf).
Qed.

Lemma flattened_In (w : World Host) flat c :
  flattenedCommands heap w = Some flat -> (In c flat <-> In c (commands w)).
Proof.
  intros Hf. pose proof (flattened_perm w flat Hf) as Hp. split.
  - now apply Permutation_in.
  - apply Permutation_in. now apply Permutation_sym.
Qed.
End Throwing.

(** ** Which keys the panel handles *)

Section Keys.
Context {Host : Type} (heap : Ref -> CommandItem Host).

Lemma handleKeydown_other event (w : World Host) :
  ~ handled_key (key event) ->
  handleKeydown heap event w = mkRun (Normal tt) w [].
Proof.
  intros H. unfold handled_key in H. run_listener.
  destruct (visible w); simpl; [|reflexivity].
  destruct (String.eqb_spec (key event) "Escape"); [tauto|].
  destruct (String.eqb_spec (key event) "ArrowDown"); [tauto|].
  destruct (String.eqb_spec (key event) "ArrowUp"); [tauto|].
  destruct (String.eqb_spec (key event) "Enter"); [tauto|].
  reflexivity.
Qed.

Lemma handleKeydown_Enter_throw event (w : World Host) :
  visible w = true -> key event = "Enter" ->
  flattenedCommands heap w = None ->
  handleKeydown heap event w = mkRun Throw w [PreventDefault].
Proof. intros Hv Hk Hf. run_listener. rewrite Hv, Hk. simpl. now rewrite Hf. Qed.

(** X2.  The panel's listener prevents the default action of a key
    exactly when the panel is visible and the key is Escape, ArrowDown,
    ArrowUp or Enter, also when the computed list throws under it; in
    every other case it returns at once with the state untouched, so
    that any other key reaches the search field. *)
Theorem handleKeydown_prevents_default_iff (event : KeyboardEvent) (w : World Host) :
  (In PreventDefault (effects (handleKeydown heap event w)) <->
   visible w = true /\ handled_key (key event)) /\
  (~ (visible w = true /\ handled_key (key event)) ->
   handleKeydown heap event w = mkRun (Normal tt) w []).
Proof.
  assert (Hno : ~ (visible w = true /\ handled_key (key event)) ->
                handleKeydown heap event w = mkRun (Normal tt) w []).
  { intros H. destruct (visible w) eqn:Hv.
    - apply handleKeydown_other. tauto.
    - now apply handleKeydown_closed. }
  split; [|exact Hno]. split.
  - intros Hin. destruct (visible w) eqn:Hv.
    + split; [reflexivity|].
      destruct (String.eqb_spec (key event) "Escape"); [now left|].
      destruct (String.eqb_spec (key event) "ArrowDown"); [now right; left|].
      destruct (String.eqb_spec (key event) "ArrowUp"); [now right; right; left|].
      destruct (String.eqb_spec (key event) "Enter"); [now right; right; right|].
      rewrite handleKeydown_other in Hin; [destruct Hin|].
      unfold handled_key. tauto.
    + rewrite (handleKeydown_closed heap _ _ Hv) in Hin. destruct Hin.
  - intros [Hv [Hk|[Hk|[Hk|Hk]]]].
    + rewrite (handleKeydown_Escape heap _ _ Hv Hk). now left.
    + destruct (flattenedCommands heap w) as [flat|] eqn:Hf.
      * rewrite (handleKeydown_ArrowDown heap _ _ _ Hv Hk Hf). now left.
      * rewrite (handleKeydown_ArrowDown_throw heap _ _ Hv Hk Hf). now left.
    + rewrite (handleKeydown_ArrowUp heap _ _ Hv Hk). now left.
    + destruct (flattenedCommands heap w) as [flat|] eqn:Hf.
      * rewrite (handleKeydown_Enter heap _ _ _ Hv Hk Hf).
        destruct (JS.at_index flat (selectedIndex w)); now left.
      * rewrite (handleKeydown_Enter_throw _ _ Hv Hk Hf). now left.
Qed.
End Keys.

(** ** The selection stays valid *)

(** Brings the flattened list of a world with the same commands back to
    that of [w]. *)
Ltac same_list H w :=
  match type of H with
  | flattenedCommands ?heap ?w1 = _ =>
      rewrite (flattenedCommands_commands heap w1 w eq_refl) in H
  end.

Section Validity.
Context {Host : Type} (heap : Ref -> CommandItem Host).

Lemma valid_at_zero (w : World Host) :
  selectedIndex w = 0%Z -> selection_valid heap w.
Proof.
  intros H flat _ Hne. rewrite H. pose proof (length_pos flat Hne). lia.
Qed.

Lemma valid_same_list (w w' : World Host) :
  commands w' = commands w -> selectedIndex w' = selectedIndex w ->
  selection_valid heap w -> selection_valid heap w'.
Proof.
  intros Hc Hi Hvalid flat Hf Hne. rewrite Hi. apply Hvalid; [|exact Hne].
  rewrite <- Hf. symmetry. now apply flattenedCommands_commands.
Qed.

Lemma valid_watch (w w' : World Host) :
  selection_valid heap w' -> selection_valid heap (watch_searchQuery w w').
Proof.
  intros H. unfold watch_searchQuery.
  destruct (String.eqb (searchQuery w) (searchQuery w')); [exact H|].
  now apply valid_at_zero.
Qed.

Lemma indexOf_in_range (flat : list Ref) (c : Ref) :
  In c flat ->
  (0 <= JS.indexOf flat c <= JS.length flat - 1)%Z /\
  JS.at_index flat (JS.indexOf flat c) = Some c.
Proof.
  intros Hin. apply In_nth_error in Hin. destruct Hin as (i & Hi).
  destruct (indexOf_first flat c i Hi) as (k & Hk & _ & Hnth & _).
  assert (Hlt : k < List.length flat) by (apply nth_error_Some; congruence).
  rewrite Hk. unfold JS.length, JS.at_index. split; [lia|].
  replace (Z.of_nat k <? 0)%Z with false by (symmetry; apply Z.ltb_ge; lia).
  now rewrite Nat2Z.id.
Qed.

Lemma valid_handleKeydown event (w : World Host) :
  action_keeps_selection heap ->
  selection_valid heap w ->
  selection_valid heap (world (handleKeydown heap event w)).
Proof.
  intros Hact Hvalid.
  destruct (visible w) eqn:Hv;
    [|now rewrite (handleKeydown_closed heap _ _ Hv)].
  destruct (String.eqb_spec (key event) "Escape") as [Hk|N1].
  { rewrite (handleKeydown_Escape heap _ _ Hv Hk). now apply valid_at_zero. }
  destruct (String.eqb_spec (key event) "ArrowDown") as [Hk|N2].
  { destruct (flattenedCommands heap w) as [flat|] eqn:Hf.
    - rewrite (handleKeydown_ArrowDown heap _ _ _ Hv Hk Hf).
      intros flat' Hf' Hne. same_list Hf' w.
      assert (flat' = flat) by congruence. subst flat'.
      specialize (Hvalid flat Hf Hne). simpl. lia.
    - rewrite (handleKeydown_ArrowDown_throw heap _ _ Hv Hk Hf).
      now apply (valid_same_list w). }
  destruct (String.eqb_spec (key event) "ArrowUp") as [Hk|N3].
  { rewrite (handleKeydown_ArrowUp heap _ _ Hv Hk).
    intros flat Hf Hne. same_list Hf w.
    specialize (Hvalid flat Hf Hne). simpl. lia. }
  destruct (String.eqb_spec (key event) "Enter") as [Hk|N4].
  { destruct (flattenedCommands heap w) as [flat|] eqn:Hf.
    - rewrite (handleKeydown_Enter heap _ _ _ Hv Hk Hf).
      destruct (JS.at_index flat (selectedIndex w)); simpl;
        [now apply Hact | exact Hvalid].
    - now rewrite (handleKeydown_Enter_throw heap _ _ Hv Hk Hf). }
  rewrite handleKeydown_other; [exact Hvalid|]. unfold handled_key. tauto.
Qed.

Lemma valid_handleGlobalKeydown event (w : World Host) :
  selection_valid heap w ->
  selection_valid heap (world (handleGlobalKeydown event w)).
Proof.
  intros Hvalid. destruct (is_hotkey event) eqn:E.
  - rewrite (handleGlobalKeydown_hotkey _ _ E).
    destruct (visible w); now apply valid_at_zero.
  - now rewrite (handleGlobalKeydown_other _ _ E).
Qed.

Lemma valid_handleMouseEnter command (w : World Host) :
  In command (commands w) ->
  selection_valid heap w ->
  selection_valid heap (world (handleMouseEnter heap command w)).
Proof.
  intros Hin Hvalid. run_listener.
  destruct (isKeyboardNavigation w); simpl; [exact Hvalid|].
  destruct (flattenedCommands heap w) as [flat|] eqn:Hf; simpl;
    [|exact Hvalid].
  intros flat' Hf' _. same_list Hf' w.
  assert (flat' = flat) by congruence. subst flat'. simpl.
  apply indexOf_in_range. now apply (flattened_In heap w flat).
Qed.

Lemma valid_dispatch (ev : Event) (w : World Host) :
  action_keeps_selection heap ->
  selection_valid heap w -> enabled w ev ->
  selection_valid heap (dispatch heap ev w).
Proof.
  intros Hact Hvalid Hen. destruct ev; simpl in *; unfold keydown, fire.
  - apply valid_watch, valid_handleGlobalKeydown, valid_watch.
    now apply valid_handleKeydown.
  - now apply valid_watch, valid_handleGlobalKeydown.
  - apply valid_watch. now apply valid_at_zero.
  - apply valid_watch. simpl. now apply Hact.
  - apply valid_watch. apply valid_handleMouseEnter; tauto.
  - apply valid_watch. now apply (valid_same_list w).
  - apply valid_watch. now apply (valid_same_list w).
  - apply valid_watch. now apply valid_at_zero.
  - apply valid_watch. now apply valid_at_zero.
Qed.

(** X3.  Whatever the user and the host do to the mounted component,
    the selection stays valid: if [selectedIndex] lies in [0, count-1]
    whenever the flattened list is not empty (as it does when the panel
    has just been opened), it still does after any run of events: keys in
    the panel or in the document, overlay and item clicks, hovering,
    typing, the navigation timer, the exposed openPanel and closePanel.
    The actions of the commands are assumed to keep it so. *)
Theorem selection_stays_valid (evs : list Event) (w : World Host) :
  action_keeps_selection heap ->
  selection_valid heap w ->
  enabled_run heap evs w ->
  selection_valid heap (run heap evs w).
Proof.
  intros Hact. revert w. induction evs as [|ev rest IH]; intros w Hvalid Hen;
    [exact Hvalid|].
  destruct Hen as [Hev Hrest]. simpl. apply IH; [|exact Hrest].
  now apply valid_dispatch.
Qed.
End Validity.

(** ** Counting arrow presses *)

Section Counting.
Context {Host : Type} (heap : Ref -> CommandItem Host).

Lemma repeat_arrows event k : is_arrow event -> Forall is_arrow (repeat event k).
Proof.
  intros H. apply Forall_forall. intros e He.
  apply repeat_spec in He. now subst.
Qed.

Lemma press_repeat_S event k (w : World Host) :
  press heap (repeat event (S k)) w =
  keydown heap event (press heap (repeat event k) w).
Proof.
  change (repeat event (S k)) with (event :: repeat event k).
  rewrite repeat_cons. apply press_snoc.
Qed.

Lemma press_ArrowDown_repeat event k (w : World Host) flat :
  visible w = true -> key event = "ArrowDown" ->
  flattenedCommands heap w = Some flat ->
  (selectedIndex w <= JS.length flat - 1)%Z ->
  selectedIndex (press heap (repeat event k) w) =
  Z.min (selectedIndex w + Z.of_nat k) (JS.length flat - 1).
Proof.
  intros Hv Hk Hf Hle. induction k as [|k IH]; [simpl; lia|].
  destruct (press_arrows_open heap (repeat event k) w flat Hv Hf
              (repeat_arrows event k (or_introl Hk))) as [Hv' Hf'].
  rewrite press_repeat_S, (keydown_ArrowDown heap _ _ _ Hv' Hk Hf'). simpl.
  rewrite IH. lia.
Qed.

Lemma press_ArrowUp_repeat event k (w : World Host) flat :
  visible w = true -> key event = "ArrowUp" ->
  flattenedCommands heap w = Some flat ->
  (0 <= selectedIndex w)%Z ->
  selectedIndex (press heap (repeat event k) w) =
  Z.max (selectedIndex w - Z.of_nat k) 0.
Proof.
  intros Hv Hk Hf Hle. induction k as [|k IH]; [simpl; lia|].
  destruct (press_arrows_open heap (repeat event k) w flat Hv Hf
              (repeat_arrows event k (or_intror Hk))) as [Hv' _].
  rewrite press_repeat_S, (keydown_ArrowUp heap _ _ Hv' Hk). simpl.
  rewrite IH. lia.
Qed.

(** X4.  In the open panel, k presses of ArrowDown move a selection that
    is not beyond the end of the list to min(selectedIndex + k, count-1),
    and k presses of ArrowUp move a selection that is not negative to
    max(selectedIndex - k, 0): the selection advances one command per
    press and stops at the last and at the first command, without
    wrapping around. *)
Theorem arrows_move_one_step_and_saturate
  (w : World Host) (flat : list Ref) (down up : KeyboardEvent) (k : nat) :
  visible w = true ->
  flattenedCommands heap w = Some flat ->
  key down = "ArrowDown" -> key up = "ArrowUp" ->
  ((selectedIndex w <= JS.length flat - 1)%Z ->
   selectedIndex (press heap (repeat down k) w) =
   Z.min (selectedIndex w + Z.of_nat k) (JS.length flat - 1)) /\
  ((0 <= selectedIndex w)%Z ->
   selectedIndex (press heap (repeat up k) w) =
   Z.max (selectedIndex w - Z.of_nat k) 0).
Proof.
  intros Hv Hf Hd Hu. split; intros H.
  - now apply press_ArrowDown_repeat.
  - now apply press_ArrowUp_repeat with (flat := flat).
Qed.

(** X5.  Every command of the list can be executed from the keyboard:
    for a command of the list there is a number k, below the number of
    commands, such that k presses of ArrowDown in the freshly opened panel
    followed by Enter call the action of that command and of no other. *)
Theorem every_command_is_reachable
  (w : World Host) (flat : list Ref) (down enter : KeyboardEvent) (c : Ref) :
  visible w = true -> selectedIndex w = 0%Z ->
  flattenedCommands heap w = Some flat ->
  key down = "ArrowDown" -> key enter = "Enter" ->
  In c (commands w) ->
  exists k,
    k < List.length (commands w) /\
    called (handleKeydown heap enter) (press heap (repeat down k) w) = [c].
Proof.
  intros Hv H0 Hf Hd He Hin.
  apply (flattened_In heap w flat c Hf) in Hin.
  apply In_nth_error in Hin. destruct Hin as (k & Hk).
  assert (Hlt : k < List.length flat) by (apply nth_error_Some; congruence).
  exists k. split.
  - rewrite <- (Permutation_length (flattened_perm heap w flat Hf)). exact Hlt.
  - destruct (press_arrows_open heap (repeat down k) w flat Hv Hf
                (repeat_arrows down k (or_introl Hd))) as [Hv' Hf'].
    unfold called.
    rewrite (handleKeydown_Enter heap _ _ _ Hv' He Hf').
    rewrite (press_ArrowDown_repeat down k w flat Hv Hd Hf)
      by (rewrite H0; unfold JS.length; lia).
    rewrite H0. unfold JS.length.
    replace (Z.min (0 + Z.of_nat k) (Z.of_nat (List.length flat) - 1))
      with (Z.of_nat k) by lia.
    unfold JS.at_index.
    replace (Z.of_nat k <? 0)%Z with false by (symmetry; apply Z.ltb_ge; lia).
    now rewrite Nat2Z.id, Hk.
Qed.

(** X6.  ArrowDown and ArrowUp undo each other away from the ends of the
    list: below the last command, ArrowDown followed by ArrowUp gives back
    the state before the two presses, and above the first command so does
    ArrowUp followed by ArrowDown; only the keyboard-navigation flag is
    left raised. *)
Theorem arrows_undo_each_other
  (w : World Host) (flat : list Ref) (down up : KeyboardEvent) :
  visible w = true ->
  flattenedCommands heap w = Some flat ->
  key down = "ArrowDown" -> key up = "ArrowUp" ->
  ((0 <= selectedIndex w < JS.length flat - 1)%Z ->
   press heap [down; up] w = set_isKeyboardNavigation true w) /\
  ((0 < selectedIndex w <= JS.length flat - 1)%Z ->
   press heap [up; down] w = set_isKeyboardNavigation true w).
Proof.
  intros Hv Hf Hd Hu. unfold press. simpl. split; intros Hrange.
  - rewrite (keydown_ArrowDown heap _ _ _ Hv Hd Hf).
    rewrite keydown_ArrowUp by (reflexivity || exact Hu). simpl.
    unfold set_isKeyboardNavigation. rewrite Hv. f_equal. lia.
  - rewrite (keydown_ArrowUp heap _ _ Hv Hu).
    rewrite (keydown_ArrowDown heap down _ flat);
      [|reflexivity | exact Hd
       | rewrite <- Hf; now apply flattenedCommands_commands].
    simpl. unfold set_isKeyboardNavigation. rewrite Hv. f_equal. lia.
Qed.
End Counting.

(** ** Pointer against keyboard *)

Section Hover.
Context {Host : Type} (heap : Ref -> CommandItem Host).

Lemma handleMouseEnter_run (w : World Host) flat c :
  isKeyboardNavigation w = false ->
  flattenedCommands heap w = Some flat ->
  handleMouseEnter heap c w =
  mkRun (Normal tt) (set_selectedIndex (JS.indexOf flat c) w) [].
Proof. intros Hn Hf. run_listener. now rewrite Hn, Hf. Qed.

Lemma handleMouseEnter_navigating (w : World Host) c :
  isKeyboardNavigation w = true ->
  handleMouseEnter heap c w = mkRun (Normal tt) w [].
Proof. intros Hn. run_listener. now rewrite Hn. Qed.

Lemma fire_clearNavigation (w : World Host) :
  fire clearNavigation w = set_isKeyboardNavigation false w.
Proof. unfold fire. now apply watch_searchQuery_same. Qed.

(** X7.  Hovering an item and pressing Enter executes the hovered
    command: with no keyboard navigation in flight, the pointer entering
    the item of a command of the list changes the selection and nothing
    else, the new selection is a position of the flattened list that holds
    that command, and Enter then calls its action and no other. *)
Theorem hover_then_enter_executes
  (w : World Host) (flat : list Ref) (enter : KeyboardEvent) (c : Ref) :
  visible w = true -> isKeyboardNavigation w = false ->
  flattenedCommands heap w = Some flat ->
  key enter = "Enter" ->
  In c (commands w) ->
  let w' := fire (handleMouseEnter heap c) w in
  w' = set_selectedIndex (JS.indexOf flat c) w /\
  (0 <= selectedIndex w' <= JS.length flat - 1)%Z /\
  JS.at_index flat (selectedIndex w') = Some c /\
  called (handleKeydown heap enter) w' = [c].
Proof.
  intros Hv Hn Hf He Hin w'.
  assert (Hw' : w' = set_selectedIndex (JS.indexOf flat c) w).
  { unfold w', fire. rewrite (handleMouseEnter_run w flat c Hn Hf).
    now apply watch_searchQuery_same. }
  apply (flattened_In heap w flat c Hf) in Hin.
  destruct (indexOf_in_range flat c Hin) as [Hrange Hat].
  rewrite Hw'. simpl. repeat split; try lia; try exact Hat.
  unfold called.
  rewrite (handleKeydown_Enter heap enter _ flat); [|exact Hv | exact He|].
  - simpl. now rewrite Hat.
  - rewrite <- Hf. now apply flattenedCommands_commands.
Qed.

(** X8.  After an arrow key the pointer cannot take the selection back
    until the timer of that key has run: while the panel is open, a
    mouseenter that follows ArrowDown or ArrowUp leaves the state as the
    key left it, and once the 100 ms timer has cleared the flag the same
    mouseenter selects the hovered command. *)
Theorem hover_waits_for_the_navigation_timer
  (w : World Host) (flat : list Ref) (arrow : KeyboardEvent) (c : Ref) :
  visible w = true ->
  flattenedCommands heap w = Some flat ->
  is_arrow arrow ->
  let w1 := keydown heap arrow w in
  isKeyboardNavigation w1 = true /\
  fire (handleMouseEnter heap c) w1 = w1 /\
  selectedIndex (fire (handleMouseEnter heap c) (fire clearNavigation w1)) =
    JS.indexOf flat c.
Proof.
  intros Hv Hf Ha w1.
  assert (Hflag : isKeyboardNavigation w1 = true).
  { unfold w1. destruct Ha as [Hk|Hk].
    - now rewrite (keydown_ArrowDown heap _ _ _ Hv Hk Hf).
    - now rewrite (keydown_ArrowUp heap _ _ Hv Hk). }
  assert (Hf1 : flattenedCommands heap w1 = Some flat).
  { unfold w1. destruct Ha as [Hk|Hk].
    - rewrite (keydown_ArrowDown heap _ _ _ Hv Hk Hf).
      rewrite <- Hf. now apply flattenedCommands_commands.
    - rewrite (keydown_ArrowUp heap _ _ Hv Hk).
      rewrite <- Hf. now apply flattenedCommands_commands. }
  split; [exact Hflag|]. split.
  - unfold fire. rewrite (handleMouseEnter_navigating _ _ Hflag).
    now apply watch_searchQuery_same.
  - rewrite fire_clearNavigation. apply fire_handleMouseEnter; [reflexivity|].
    rewrite <- Hf1. now apply flattenedCommands_commands.
Qed.

End Hover.

(** ** Opening and closing compose *)

Section Composition.
Context {Host : Type} (heap : Ref -> CommandItem Host).

(** X10.  Closing and opening forget the widget state before them and
    absorb each other: closing twice is closing once, opening twice is
    opening once, and after an opening or a closing the other one gives
    the same state as it gives alone.  Escape is idempotent: a second
    Escape finds the panel closed and changes nothing. *)
Theorem open_and_close_absorb (w : World Host) (escape : KeyboardEvent) :
  key escape = "Escape" ->
  fire closePanel (fire closePanel w) = fire closePanel w /\
  fire openPanel (fire openPanel w) = fire openPanel w /\
  fire closePanel (fire openPanel w) = fire closePanel w /\
  fire openPanel (fire closePanel w) = fire openPanel w /\
  keydown heap escape (keydown heap escape w) = keydown heap escape w /\
  keydown heap escape (fire closePanel w) = fire closePanel w.
Proof.
  intros He. rewrite !fire_closePanel, !fire_openPanel. simpl.
  repeat split.
  - assert (Hclosed : forall v : World Host,
              visible v = false -> keydown heap escape v = v).
    { intros v Hv. unfold keydown.
      rewrite (fire_not_hotkey escape) by (now apply (not_hotkey_key _ _ He)).
      unfold fire. rewrite (handleKeydown_closed heap _ _ Hv).
      now apply watch_searchQuery_same. }
    destruct (visible w) eqn:Hv.
    + rewrite (keydown_Escape heap _ _ Hv He). now apply Hclosed.
    + rewrite (Hclosed w Hv). now apply Hclosed.
  - unfold keydown.
    rewrite (fire_not_hotkey escape) by (now apply (not_hotkey_key _ _ He)).
    unfold fire. rewrite handleKeydown_closed by reflexivity.
    now apply watch_searchQuery_same.
Qed.
End Composition.

(** ** The shape of the grouping *)

Section Shape.
Context {Host : Type} (heap : Ref -> CommandItem Host).

Local Abbreviation cat := (categoryOf heap).

Lemma grouped_value (w : World Host) groups :
  groupedCommands heap w = Some groups ->
  groups = grouped_spec heap (commands w).
Proof.
  intros Hg. destruct (good_or_inherited heap (commands w)) as [Hgood|Hbad].
  - unfold groupedCommands in Hg.
    rewrite (forEach_group_command heap _ Hgood) in Hg. congruence.
  - unfold groupedCommands in Hg.
    rewrite (forEach_group_command_throws heap _ Hbad) in Hg. discriminate.
Qed.

Lemma inCategory_In c l r :
  In r (inCategory heap c l) <-> In r l /\ cat r = c.
Proof. unfold inCategory. now rewrite filter_In, String.eqb_eq. Qed.

(** X11.  The grouping object has one property per category that occurs
    in the list and no other: no category twice, no category without
    commands, and every command of the list sits in the group of its own
    category (with "Other" for a missing or empty one), which holds
    commands of that category only. *)
Theorem grouping_has_no_empty_or_repeated_category (w : World Host) groups :
  groupedCommands heap w = Some groups ->
  NoDup (JS.keys groups) /\
  (forall c, In c (JS.keys groups) <-> exists r, In r (commands w) /\ cat r = c) /\
  (forall c cs, In (c, cs) groups ->
     cs <> [] /\ Forall (fun r => In r (commands w) /\ cat r = c) cs) /\
  (forall r, In r (commands w) ->
     exists cs, JS.own groups (cat r) = Some cs /\ In r cs).
Proof.
  intros Hg. rewrite (grouped_value w groups Hg). unfold grouped_spec.
  rewrite keys_tabulate. split; [apply categories_NoDup|]. split; [|split].
  - intros c. rewrite categories_In, in_map_iff. split.
    + intros (r & E & Hr). now exists r.
    + intros (r & Hr & E). now exists r.
  - intros c cs Hin. unfold tabulate in Hin. apply in_map_iff in Hin.
    destruct Hin as (k & E & Hk). inversion E; subst. split.
    + apply categories_In, in_map_iff in Hk. destruct Hk as (r & E' & Hr).
      intros Hnil. assert (Hin : In r (inCategory heap c (commands w)))
        by now apply inCategory_In.
      rewrite Hnil in Hin. destruct Hin.
    + apply Forall_forall. intros r Hr. now apply inCategory_In.
  - intros r Hr. exists (inCategory heap (cat r) (commands w)). split.
    + apply (own_tabulate_in (fun c => inCategory heap c (commands w))).
      now apply categories_cover.
    + now apply inCategory_In.
Qed.
End Shape.

(** ** Categories that are array indices *)

Section IndexOrder.
Context {Host : Type} (heap : Ref -> CommandItem Host).

Local Abbreviation cat := (categoryOf heap).
Local Abbreviation by_index := (fun p q : N * string => (fst p <= fst q)%N).

Lemma insert_index_sorted n k l :
  StronglySorted by_index l -> StronglySorted by_index (JS.insert_index n k l).
Proof.
  induction l as [|[m k'] t IH]; simpl; intros Hs.
  - repeat constructor.
  - inversion Hs as [|? ? Ht Hall]; subst.
    destruct (N.leb_spec n m) as [Hle|Hgt].
    + constructor; [exact Hs|]. constructor; [exact Hle|].
      eapply Forall_impl; [|exact Hall]. simpl. intros a Ha. lia.
    + constructor; [now apply IH|].
      eapply Permutation_Forall.
      * apply Permutation_sym, insert_index_perm.
      * constructor; [simpl; lia | exact Hall].
Qed.

Lemma index_keys_sorted ks : StronglySorted by_index (JS.index_keys ks).
Proof.
  induction ks as [|k t IH]; simpl; [constructor|].
  destruct (JS.array_index k); [now apply insert_index_sorted | exact IH].
Qed.

Lemma index_keys_In n k ks :
  In (n, k) (JS.index_keys ks) -> JS.array_index k = Some n /\ In k ks.
Proof.
  induction ks as [|k' t IH]; simpl; intros H; [contradiction|].
  destruct (JS.array_index k') as [m|] eqn:E.
  - apply (Permutation_in _ (insert_index_perm m k' _)) in H.
    destruct H as [H|H].
    + inversion H; subst. now split; [|left].
    + destruct (IH H). now split; [|right].
  - destruct (IH H). now split; [|right].
Qed.

Lemma StronglySorted_app {A} (R : A -> A -> Prop) l1 l2 :
  StronglySorted R l1 -> StronglySorted R l2 ->
  (forall a b, In a l1 -> In b l2 -> R a b) ->
  StronglySorted R (l1 ++ l2).
Proof.
  induction l1 as [|x t IH]; simpl; intros H1 H2 H; [exact H2|].
  inversion H1 as [|? ? Ht Hall]; subst. constructor.
  - apply IH; [exact Ht | exact H2|]. intros a b Ha Hb. apply H; [now right | exact Hb].
  - apply Forall_app. split; [exact Hall|].
    apply Forall_forall. intros b Hb. apply H; [now left | exact Hb].
Qed.

Lemma StronglySorted_all {A} (R : A -> A -> Prop) l :
  (forall a b, In a l -> In b l -> R a b) -> StronglySorted R l.
Proof.
  induction l as [|x t IH]; intros H; constructor.
  - apply IH. intros a b Ha Hb. apply H; now right.
  - apply Forall_forall. intros b Hb. apply H; [now left | now right].
Qed.

Lemma index_blocks_sorted (l : list Ref) (P : list (N * string)) :
  StronglySorted by_index P ->
  (forall n k, In (n, k) P -> JS.array_index k = Some n) ->
  StronglySorted (fun a b => index_order (cat a) (cat b))
                 (flat_map (fun c => inCategory heap c l) (map snd P)).
Proof.
  induction P as [|[n k] P' IH]; simpl; intros Hs Hspec; [constructor|].
  inversion Hs as [|? ? Hs' Hall]; subst.
  assert (Hk : JS.array_index k = Some n) by (apply Hspec; now left).
  apply StronglySorted_app.
  - apply StronglySorted_all. intros a b Ha Hb.
    apply inCategory_In in Ha. apply inCategory_In in Hb.
    destruct Ha as [_ ->]. destruct Hb as [_ ->].
    unfold index_order. rewrite Hk. lia.
  - apply IH; [exact Hs'|]. intros m k' Hin. apply Hspec. now right.
  - intros a b Ha Hb. apply inCategory_In in Ha. destruct Ha as [_ Ea].
    apply in_flat_map in Hb. destruct Hb as (k' & Hk' & Hb).
    apply inCategory_In in Hb. destruct Hb as [_ Eb].
    apply in_map_iff in Hk'. destruct Hk' as ([m k''] & E & Hin).
    simpl in E. subst k''.
    unfold index_order. rewrite Ea, Eb, Hk, (Hspec m k' (or_intror Hin)).
    rewrite Forall_forall in Hall. exact (Hall _ Hin).
Qed.

(** X12.  Commands whose category is an array index come first in the
    flattened list, ordered by that index; the commands of all other
    categories follow, category by category in first-seen order.  No
    command of an ordinary category is ever placed before a command of a
    numeric one. *)
Theorem index_categories_come_first (w : World Host) (flat : list Ref) :
  flattenedCommands heap w = Some flat ->
  exists front back,
    flat = front ++ back /\
    Forall (fun r => JS.is_array_index (cat r) = true) front /\
    StronglySorted (fun a b => index_order (cat a) (cat b)) front /\
    Forall (fun r => JS.is_array_index (cat r) = false) back /\
    back = flat_map (fun c => inCategory heap c (commands w))
             (filter (fun c => negb (JS.is_array_index c))
                     (categories heap (commands w))).
Proof.
  intros Hf. rewrite (flattened_value heap w flat Hf).
  unfold flattened_in_key_order, JS.own_property_keys.
  rewrite flat_map_app.
  eexists. eexists. split; [reflexivity|]. split; [|split; [|split]].
  - apply Forall_forall. intros r Hr. apply in_flat_map in Hr.
    destruct Hr as (k & Hk & Hr). apply inCategory_In in Hr.
    destruct Hr as [_ ->]. apply in_map_iff in Hk.
    destruct Hk as ([n k'] & E & Hin). simpl in E. subst k'.
    apply index_keys_In in Hin. unfold JS.is_array_index.
    now rewrite (proj1 Hin).
  - apply index_blocks_sorted; [apply index_keys_sorted|].
    intros n k Hin. now apply index_keys_In in Hin.
  - apply Forall_forall. intros r Hr. apply in_flat_map in Hr.
    destruct Hr as (k & Hk & Hr). apply inCategory_In in Hr.
    destruct Hr as [_ ->]. apply filter_In in Hk.
    now apply negb_true_iff.
  - reflexivity.
Qed.
End IndexOrder.

(** ** Flattening a flattened list *)

Section Idempotence.
Context {Host : Type} (heap : Ref -> CommandItem Host).

Local Abbreviation cat := (categoryOf heap).
Local Abbreviation by_index := (fun p q : N * string => (fst p <= fst q)%N).

Lemma index_keys_app_plain A B :
  (forall k, In k B -> JS.is_array_index k = false) ->
  JS.index_keys (A ++ B) = JS.index_keys A.
Proof.
  intros HB. induction A as [|a A IH]; simpl.
  - now apply index_keys_none.
  - now rewrite IH.
Qed.

Lemma index_keys_of_sorted (P : list (N * string)) :
  StronglySorted by_index P ->
  (forall n k, In (n, k) P -> JS.array_index k = Some n) ->
  JS.index_keys (map snd P) = P.
Proof.
  induction P as [|[n k] P' IH]; simpl; intros Hs Hspec; [reflexivity|].
  inversion Hs as [|? ? Hs' Hall]; subst.
  rewrite (Hspec n k (or_introl eq_refl)).
  rewrite IH; [|exact Hs' | intros m k' H; apply Hspec; now right].
  destruct P' as [|[m k'] P'']; simpl; [reflexivity|].
  inversion Hall as [|? ? Hle _]; subst. simpl in Hle.
  now rewrite (proj2 (N.leb_le n m) Hle).
Qed.

Lemma filter_index_keys ks :
  filter (fun k => negb (JS.is_array_index k)) (map snd (JS.index_keys ks)) = [].
Proof.
  apply filter_none. intros k Hk. apply in_map_iff in Hk.
  destruct Hk as ([n k'] & E & Hin). simpl in E. subst k'.
  apply index_keys_In in Hin. unfold JS.is_array_index.
  now rewrite (proj1 Hin).
Qed.

(** Object.keys of an object whose properties were created in the order
    Object.keys gives for another object is that same order. *)
Lemma own_property_keys_idempotent ks :
  JS.own_property_keys (JS.own_property_keys ks) = JS.own_property_keys ks.
Proof.
  unfold JS.own_property_keys.
  rewrite index_keys_app_plain.
  - rewrite index_keys_of_sorted;
      [|apply index_keys_sorted
       |intros n k H; now apply index_keys_In in H].
    f_equal. rewrite filter_app, filter_index_keys. simpl.
    apply filter_all. intros k Hk. apply filter_In in Hk. tauto.
  - intros k Hk. apply filter_In in Hk. now apply negb_true_iff.
Qed.

Lemma filter_twice {A} (p : A -> bool) (l : list A) :
  filter p (filter p l) = filter p l.
Proof.
  apply filter_all. intros x Hx. apply filter_In in Hx. tauto.
Qed.

Lemma firstSeen_block (k : string) (b rest : list string) :
  b <> [] -> Forall (fun x => x = k) b ->
  firstSeen (b ++ rest) =
  k :: filter (fun y => negb (String.eqb y k)) (firstSeen rest).
Proof.
  induction b as [|x b IH]; intros Hne Hall; [congruence|].
  inversion Hall as [|? ? Hx Hb]; subst. simpl. f_equal.
  destruct b as [|y b]; [reflexivity|].
  rewrite IH; [|discriminate | exact Hb]. simpl.
  rewrite String.eqb_refl. simpl. apply filter_twice.
Qed.

Lemma firstSeen_blocks (F : string -> list Ref) (K : list string) :
  NoDup K ->
  (forall k, In k K -> F k <> [] /\ Forall (fun r => cat r = k) (F k)) ->
  firstSeen (map cat (flat_map F K)) = K.
Proof.
  induction K as [|k K' IH]; simpl; intros Hnd HF; [reflexivity|].
  inversion Hnd as [|? ? Hout Hnd']; subst.
  destruct (HF k (or_introl eq_refl)) as [Hne Hall].
  rewrite map_app, (firstSeen_block k).
  - rewrite IH; [|exact Hnd' | intros k' Hk'; apply HF; now right].
    f_equal. apply filter_all. intros y Hy. apply negb_true_iff, String.eqb_neq.
    congruence.
  - destruct (F k); [congruence | discriminate].
  - apply Forall_forall. intros x Hx. apply in_map_iff in Hx.
    destruct Hx as (r & <- & Hr). rewrite Forall_forall in Hall. now apply Hall.
Qed.

Lemma categories_of_flattened (l : list Ref) :
  categories heap (flattened_in_key_order heap l) =
  JS.own_property_keys (categories heap l).
Proof.
  unfold flattened_in_key_order. unfold categories at 1.
  apply firstSeen_blocks; [apply key_order_NoDup|].
  intros k Hk. split.
  - apply (Permutation_in _ (own_property_keys_perm _)) in Hk.
    apply categories_In, in_map_iff in Hk. destruct Hk as (r & E & Hr).
    intros Hnil.
    assert (Hin : In r (inCategory heap k l)) by now apply inCategory_In.
    rewrite Hnil in Hin. destruct Hin.
  - apply Forall_forall. intros r Hr. now apply inCategory_In in Hr.
Qed.

(** X13.  Flattening is idempotent: when the host passes the commands in
    the order in which the component flattened them, the flattened list is
    that same list again, so displaying and navigating follow the order
    given. *)
Theorem flattening_is_idempotent (w : World Host) (flat : list Ref) :
  flattenedCommands heap w = Some flat ->
  flattenedCommands heap (set_commands flat w) = Some flat.
Proof.
  intros Hf.
  pose proof (flattened_good heap w flat Hf) as Hgood.
  pose proof (flattened_perm heap w flat Hf) as Hperm.
  rewrite flattenedCommands_key_order.
  - f_equal. simpl. rewrite (flattened_value heap w flat Hf).
    set (l := commands w).
    unfold flattened_in_key_order at 1.
    rewrite categories_of_flattened, own_property_keys_idempotent.
    unfold flattened_in_key_order.
    apply flat_map_ext. intros k.
    apply inCategory_flat_map; [apply key_order_NoDup | apply key_order_cover].
  - simpl. eapply Permutation_Forall; [apply Permutation_sym, Hperm | exact Hgood].
Qed.
End Idempotence.

(** ** The rendered list *)

Section Rendering.
Context {Host : Type} (heap : Ref -> CommandItem Host).

Local Abbreviation cat := (categoryOf heap).

Lemma indexOf_nodup (flat : list Ref) (c : Ref) (i : nat) :
  NoDup flat -> nth_error flat i = Some c -> JS.indexOf flat c = Z.of_nat i.
Proof.
  intros Hnd Hi. destruct (indexOf_first flat c i Hi) as (k & Hk & _ & Hnth & _).
  rewrite Hk. f_equal. rewrite NoDup_nth_error in Hnd. apply Hnd.
  - apply nth_error_Some. congruence.
  - congruence.
Qed.

Lemma find_by_position {A} (f : A -> Z) (l : list A) :
  forall (o i : nat) (x : A),
    (forall j y, nth_error l j = Some y -> f y = Z.of_nat (o + j)) ->
    nth_error l i = Some x ->
    find (fun y => Z.eqb (f y) (Z.of_nat (o + i))) l = Some x.
Proof.
  induction l as [|y t IH]; intros o i x Hpos Hi; [destruct i; discriminate|].
  simpl. destruct i as [|i]; simpl in Hi.
  - inversion Hi; subst. rewrite (Hpos 0 x eq_refl). now rewrite Z.eqb_refl.
  - rewrite (Hpos 0 y eq_refl).
    replace (Z.of_nat (o + 0) =? Z.of_nat (o + S i))%Z with false
      by (symmetry; apply Z.eqb_neq; lia).
    replace (o + S i) with (S o + i) by lia.
    apply IH; [|exact Hi]. intros j z Hj.
    rewrite (Hpos (S j) z Hj). f_equal. lia.
Qed.

Lemma find_nothing {A} (p : A -> bool) (l : list A) :
  (forall x, In x l -> p x = false) -> find p l = None.
Proof.
  induction l as [|y t IH]; simpl; intros H; [reflexivity|].
  rewrite (H y (or_introl eq_refl)). apply IH. intros x Hx. apply H. now right.
Qed.

Lemma render_groups (w : World Host) (flat : list Ref) (l : list Ref) K all :
  (forall k, In k K -> In k all) ->
  flat_map snd
    (map (render_category heap w (tabulate (fun c => inCategory heap c l) all)
            flat) K) =
  map (render_item heap w flat) (flat_map (fun c => inCategory heap c l) K).
Proof.
  induction K as [|k K' IH]; simpl; intros Hall; [reflexivity|].
  rewrite map_app, IH by (intros k' Hk'; apply Hall; now right).
  f_equal. unfold JS.get.
  now rewrite (own_tabulate_in (fun c => inCategory heap c l))
    by (apply Hall; now left).
Qed.

(** The notice for an empty list; otherwise one item per position of the
    flattened list, in that order. *)
Lemma render_command_list_items (w : World Host) (flat : list Ref) :
  flattenedCommands heap w = Some flat ->
  commands w <> [] ->
  exists l,
    render_command_list heap w = Some l /\
    items l = map (render_item heap w flat) flat.
Proof.
  intros Hf Hne. unfold render_command_list.
  replace (JS.length (commands w) =? 0)%Z with false.
  2:{ symmetry. apply Z.eqb_neq. pose proof (length_pos _ Hne). lia. }
  pose proof (flattened_good heap w flat Hf) as Hgood.
  unfold groupedCommands. rewrite (forEach_group_command heap _ Hgood).
  rewrite Hf. eexists. split; [reflexivity|]. simpl.
  unfold grouped_spec, JS.Object_keys. rewrite keys_tabulate.
  rewrite render_groups.
  - now rewrite (flattened_value heap w flat Hf).
  - intros k. apply Permutation_in, own_property_keys_perm.
Qed.

(** X14.  What is displayed is what the keyboard walks.  An empty command
    list shows the notice and no item.  Otherwise the items appear in the
    order of the flattened list; and when no command object occurs twice,
    the item at position i carries [data-command-index] i and is the one
    marked [selected] exactly when [selectedIndex] is i, so that at most
    one item is highlighted. *)
Theorem display_follows_navigation_order (w : World Host) (flat : list Ref) :
  flattenedCommands heap w = Some flat ->
  (commands w = [] -> render_command_list heap w = Some NoCommands) /\
  (commands w <> [] ->
   exists l,
     render_command_list heap w = Some l /\
     map item_command (items l) = flat /\
     (NoDup (commands w) ->
      forall i it,
        nth_error (items l) i = Some it ->
        data_command_index it = Z.of_nat i /\
        nth_error flat i = Some (item_command it) /\
        (item_selected it = true <-> selectedIndex w = Z.of_nat i))).
Proof.
  intros Hf. split.
  - intros E. unfold render_command_list. now rewrite E.
  - intros Hne. destruct (render_command_list_items w flat Hf Hne) as (l & Hl & Hitems).
    exists l. split; [exact Hl|]. rewrite Hitems. split.
    + rewrite map_map. simpl. apply map_id.
    + intros Hnd i it Hi.
      assert (Hnd' : NoDup flat).
      { eapply Permutation_NoDup; [|exact Hnd].
        apply Permutation_sym, (flattened_perm heap w flat Hf). }
      rewrite nth_error_map in Hi.
      destruct (nth_error flat i) as [c|] eqn:Hc; [|discriminate].
      inversion Hi; subst it. simpl.
      rewrite (indexOf_nodup flat c i Hnd' Hc).
      split; [reflexivity|]. split; [reflexivity|]. apply Z.eqb_eq.
Qed.

(** X15.  scrollToSelectedCommand finds its element exactly when the
    selection is valid.  With no command object occurring twice and
    [selectedIndex] in [0, count-1], the element queried by
    [data-command-index] is the item at that position, which is the
    highlighted one and belongs to the selected command; with
    [selectedIndex] outside [0, count-1] (for instance -1) no element
    matches and nothing is scrolled. *)
Theorem scroll_target_is_the_selected_item (w : World Host) (flat : list Ref) :
  flattenedCommands heap w = Some flat ->
  commands w <> [] ->
  exists l,
    render_command_list heap w = Some l /\
    (NoDup (commands w) ->
     (0 <= selectedIndex w <= JS.length flat - 1)%Z ->
     exists it,
       scroll_target w l = Some it /\
       nth_error (items l) (Z.to_nat (selectedIndex w)) = Some it /\
       item_selected it = true /\
       JS.at_index flat (selectedIndex w) = Some (item_command it)) /\
    (~ (0 <= selectedIndex w <= JS.length flat - 1)%Z ->
     scroll_target w l = None).
Proof.
  intros Hf Hne.
  destruct (render_command_list_items w flat Hf Hne) as (l & Hl & Hitems).
  exists l. split; [exact Hl|]. unfold scroll_target. rewrite Hitems. split.
  - intros Hnd Hrange.
    assert (Hnd' : NoDup flat).
    { eapply Permutation_NoDup; [|exact Hnd].
      apply Permutation_sym, (flattened_perm heap w flat Hf). }
    set (i := Z.to_nat (selectedIndex w)).
    assert (Hi : selectedIndex w = Z.of_nat (0 + i)) by (unfold i; lia).
    assert (Hlt : i < List.length flat) by (unfold JS.length in Hrange; lia).
    destruct (nth_error flat i) as [c|] eqn:Hc;
      [|apply nth_error_None in Hc; lia].
    exists (render_item heap w flat c).
    assert (Hnth : nth_error (map (render_item heap w flat) flat) i
                   = Some (render_item heap w flat c)).
    { now rewrite nth_error_map, Hc. }
    split; [|split; [exact Hnth|split]].
    + rewrite Hi. apply find_by_position; [|exact Hnth].
      intros j y Hj. rewrite nth_error_map in Hj.
      destruct (nth_error flat j) as [d|] eqn:Hd; [|discriminate].
      inversion Hj; subst y. simpl. now apply indexOf_nodup.
    + simpl. rewrite (indexOf_nodup flat c i Hnd' Hc). apply Z.eqb_eq. lia.
    + simpl. unfold JS.at_index.
      replace (selectedIndex w <? 0)%Z with false
        by (symmetry; apply Z.ltb_ge; lia).
      exact Hc.
  - intros Hout. apply find_nothing. intros it Hit.
    apply in_map_iff in Hit. destruct Hit as (c & <- & Hc). simpl.
    apply Z.eqb_neq. intros E. apply Hout. rewrite <- E.
    now apply indexOf_in_range.
Qed.
End Rendering.

(** ** The playground *)

(** X16.  In the playground every action hides the panel through the
    binding and nothing resets it: Enter on the selected command leaves
    the query, the selection and the flag as they were, and the button of
    the page, which only negates the binding, then shows the panel in
    exactly the state it had before Enter.  The hot key instead reopens
    it reset. *)
Theorem playground_button_restores_the_panel
  (w : World unit) (flat : list Ref) (c : Ref) :
  visible w = true ->
  flattenedCommands Playground.heap w = Some flat ->
  JS.at_index flat (selectedIndex w) = Some c ->
  let hidden := keydown Playground.heap Keys.Enter w in
  hidden = set_visible false w /\
  App.toggleCommandPalette hidden = w /\
  widget (fire (handleGlobalKeydown Keys.Cmd_K) hidden) = (true, "", 0%Z, false).
Proof.
  intros Hv Hf Hat hidden.
  assert (Hhidden : hidden = set_visible false w).
  { unfold hidden, keydown.
    rewrite (fire_not_hotkey Keys.Enter) by reflexivity.
    unfold fire.
    rewrite (handleKeydown_Enter Playground.heap Keys.Enter w flat Hv eq_refl
               Hf), Hat.
    simpl. rewrite watch_searchQuery_same.
    - now destruct c as [|[|c]].
    - now destruct c as [|[|c]]. }
  rewrite Hhidden. split; [reflexivity|]. split.
  - unfold App.toggleCommandPalette. destruct w. simpl in *. now subst.
  - now rewrite fire_hotkey.
Qed.

(** ** The further properties at concrete inputs *)

Lemma playground_actions_keep_selection :
  action_keeps_selection Playground.heap.
Proof.
  intros c w H.
  assert (E : action (Playground.heap c) w = set_visible false w)
    by now destruct c as [|[|c]].
  rewrite E. now apply (valid_same_list Playground.heap w).
Qed.

Lemma groupedCommands_getter_throws_iff_witness :
  let w := Journal.opened [0; 4] in
  Exists (fun r => JS.inherited (categoryOf Journal.heap r) = true)
         (commands w) /\
  groupedCommands Journal.heap w = None.
Proof.
  intros w.
  assert (H : Exists (fun r => JS.inherited (categoryOf Journal.heap r) = true)
                     (commands w))
    by (right; left; reflexivity).
  split; [exact H|].
  destruct (groupedCommands_getter_throws_iff Journal.heap w) as [Hg _].
  exact (proj2 Hg H).
Defined.

Lemma handleKeydown_prevents_default_iff_witness :
  let w := Playground.open_at 0 in
  (visible w = true /\ handled_key (key Enter) /\
   ~ (visible w = true /\ handled_key (key Cmd_K))) /\
  In PreventDefault (effects (handleKeydown Playground.heap Enter w)) /\
  handleKeydown Playground.heap Cmd_K w = mkRun (Normal tt) w [].
Proof.
  intros w.
  assert (Hk : handled_key (key Enter)) by (right; right; right; reflexivity).
  assert (Hn : ~ (visible w = true /\ handled_key (key Cmd_K))).
  { intros [_ [H|[H|[H|H]]]]; discriminate H. }
  split; [repeat split; assumption|].
  destruct (handleKeydown_prevents_default_iff Playground.heap Enter w)
    as [Hiff _].
  destruct (handleKeydown_prevents_default_iff Playground.heap Cmd_K w)
    as [_ Hother].
  split; [exact (proj2 Hiff (conj eq_refl Hk)) | exact (Hother Hn)].
Defined.

Lemma selection_stays_valid_witness :
  let w := Playground.open_at 0 in
  let evs := [PanelKeydown ArrowDown; ItemMouseEnter 2; Input "s";
              PanelKeydown ArrowDown; PanelKeydown Enter;
              DocumentKeydown Cmd_K; PanelKeydown ArrowUp] in
  (action_keeps_selection Playground.heap /\
   selection_valid Playground.heap w /\
   enabled_run Playground.heap evs w) /\
  selection_valid Playground.heap (run Playground.heap evs w).
Proof.
  intros w evs.
  assert (Hvalid : selection_valid Playground.heap w)
    by (now apply valid_at_zero).
  assert (Hen : enabled_run Playground.heap evs w).
  { vm_compute. repeat split; auto. }
  split;
    [split; [exact playground_actions_keep_selection
            | split; [exact Hvalid | exact Hen]]|].
  exact (selection_stays_valid Playground.heap evs w
           playground_actions_keep_selection Hvalid Hen).
Defined.

Lemma arrows_move_one_step_and_saturate_witness :
  let w := Playground.open_at 1 in
  (visible w = true /\
   flattenedCommands Playground.heap w = Some [0; 1; 2] /\
   key ArrowDown = "ArrowDown" /\ key ArrowUp = "ArrowUp" /\
   (0 <= selectedIndex w <= JS.length [0; 1; 2] - 1)%Z) /\
  selectedIndex (press Playground.heap (repeat ArrowDown 5) w) =
    Z.min (selectedIndex w + Z.of_nat 5) (JS.length [0; 1; 2] - 1) /\
  selectedIndex (press Playground.heap (repeat ArrowUp 5) w) =
    Z.max (selectedIndex w - Z.of_nat 5) 0.
Proof.
  intros w.
  assert (Hrange : (0 <= selectedIndex w <= JS.length [0; 1; 2] - 1)%Z)
    by (unfold JS.length; simpl; lia).
  split; [repeat split; solve [reflexivity | apply Hrange]|].
  destruct (arrows_move_one_step_and_saturate Playground.heap w [0; 1; 2]
              ArrowDown ArrowUp 5 eq_refl eq_refl eq_refl eq_refl)
    as [Hdown Hup].
  split; [exact (Hdown (proj2 Hrange)) | exact (Hup (proj1 Hrange))].
Defined.

Lemma every_command_is_reachable_witness :
  let w := Playground.open_at 0 in
  (visible w = true /\ selectedIndex w = 0%Z /\
   flattenedCommands Playground.heap w = Some [0; 1; 2] /\
   In 2 (commands w)) /\
  exists k,
    k < List.length (commands w) /\
    called (handleKeydown Playground.heap Enter)
           (press Playground.heap (repeat ArrowDown k) w) = [2].
Proof.
  intros w.
  assert (Hin : In 2 (commands w)) by (right; right; left; reflexivity).
  split; [repeat split; exact Hin|].
  exact (every_command_is_reachable Playground.heap w [0; 1; 2] ArrowDown
           Enter 2 eq_refl eq_refl eq_refl eq_refl eq_refl Hin).
Defined.

Lemma arrows_undo_each_other_witness :
  let w := Playground.open_at 1 in
  (visible w = true /\
   flattenedCommands Playground.heap w = Some [0; 1; 2] /\
   (0 <= selectedIndex w < JS.length [0; 1; 2] - 1)%Z /\
   (0 < selectedIndex w <= JS.length [0; 1; 2] - 1)%Z) /\
  press Playground.heap [ArrowDown; ArrowUp] w
    = set_isKeyboardNavigation true w /\
  press Playground.heap [ArrowUp; ArrowDown] w
    = set_isKeyboardNavigation true w.
Proof.
  intros w.
  assert (H1 : (0 <= selectedIndex w < JS.length [0; 1; 2] - 1)%Z)
    by (unfold JS.length; simpl; lia).
  assert (H2 : (0 < selectedIndex w <= JS.length [0; 1; 2] - 1)%Z)
    by (unfold JS.length; simpl; lia).
  split; [repeat split; solve [reflexivity | apply H1 | apply H2]|].
  destruct (arrows_undo_each_other Playground.heap w [0; 1; 2]
              ArrowDown ArrowUp eq_refl eq_refl eq_refl eq_refl)
    as [Hdu Hud].
  split; [exact (Hdu H1) | exact (Hud H2)].
Defined.

Lemma hover_then_enter_executes_witness :
  let w := Playground.open_at 0 in
  let w' := fire (handleMouseEnter Playground.heap 2) w in
  (visible w = true /\ isKeyboardNavigation w = false /\
   flattenedCommands Playground.heap w = Some [0; 1; 2] /\
   In 2 (commands w)) /\
  selectedIndex w' = 2%Z /\
  called (handleKeydown Playground.heap Enter) w' = [2].
Proof.
  intros w w'.
  assert (Hin : In 2 (commands w)) by (right; right; left; reflexivity).
  split; [repeat split; exact Hin|].
  destruct (hover_then_enter_executes Playground.heap w [0; 1; 2] Enter 2
              eq_refl eq_refl eq_refl eq_refl Hin)
    as (Hw' & _ & _ & Hcalled).
  split; [|exact Hcalled]. unfold w'. now rewrite Hw'.
Defined.

Lemma hover_waits_for_the_navigation_timer_witness :
  let w := Playground.open_at 0 in
  let w1 := keydown Playground.heap ArrowDown w in
  (visible w = true /\
   flattenedCommands Playground.heap w = Some [0; 1; 2] /\
   is_arrow ArrowDown) /\
  fire (handleMouseEnter Playground.heap 2) w1 = w1 /\
  selectedIndex (fire (handleMouseEnter Playground.heap 2)
                      (fire clearNavigation w1)) = JS.indexOf [0; 1; 2] 2.
Proof.
  intros w w1.
  assert (Ha : is_arrow ArrowDown) by (left; reflexivity).
  split; [repeat split; exact Ha|].
  destruct (hover_waits_for_the_navigation_timer Playground.heap w [0; 1; 2]
              ArrowDown 2 eq_refl eq_refl Ha) as (_ & Hsame & Hafter).
  split; [exact Hsame | exact Hafter].
Defined.

Lemma open_and_close_absorb_witness :
  let w := Journal.browsing [0; 3] in
  key Escape = "Escape" /\
  fire closePanel (fire openPanel w) = fire closePanel w /\
  keydown Journal.heap Escape (keydown Journal.heap Escape w)
    = keydown Journal.heap Escape w.
Proof.
  intros w. split; [reflexivity|].
  destruct (open_and_close_absorb Journal.heap w Escape eq_refl)
    as (_ & _ & Hco & _ & Hesc & _).
  split; [exact Hco | exact Hesc].
Defined.

Lemma grouping_has_no_empty_or_repeated_category_witness :
  let w := Playground.closed in
  let groups := [("File", [0; 1]); ("System", [2])] in
  groupedCommands Playground.heap w = Some groups /\
  NoDup (JS.keys groups) /\
  (forall c cs, In (c, cs) groups -> cs <> []) /\
  (forall r, In r (commands w) ->
     exists cs, JS.own groups (categoryOf Playground.heap r) = Some cs /\
                In r cs).
Proof.
  intros w groups.
  assert (Hg : groupedCommands Playground.heap w = Some groups) by reflexivity.
  split; [exact Hg|].
  destruct (grouping_has_no_empty_or_repeated_category Playground.heap w
              groups Hg) as (Hnd & _ & Hgroups & Hown).
  split; [exact Hnd|]. split; [|exact Hown].
  intros c cs Hin. exact (proj1 (Hgroups c cs Hin)).
Defined.

Lemma index_categories_come_first_witness :
  let w := Journal.opened [0; 1; 3] in
  flattenedCommands Journal.heap w = Some [1; 0; 3] /\
  exists front back,
    [1; 0; 3] = front ++ back /\
    Forall (fun r => JS.is_array_index (categoryOf Journal.heap r) = true)
           front /\
    Forall (fun r => JS.is_array_index (categoryOf Journal.heap r) = false)
           back.
Proof.
  intros w.
  assert (Hf : flattenedCommands Journal.heap w = Some [1; 0; 3])
    by reflexivity.
  split; [exact Hf|].
  destruct (index_categories_come_first Journal.heap w [1; 0; 3] Hf)
    as (front & back & E & Hfront & _ & Hback & _).
  exists front, back. repeat split; assumption.
Defined.

Lemma flattening_is_idempotent_witness :
  let w := Journal.opened [0; 1; 3] in
  flattenedCommands Journal.heap w = Some [1; 0; 3] /\
  flattenedCommands Journal.heap (set_commands [1; 0; 3] w) = Some [1; 0; 3].
Proof.
  intros w.
  assert (Hf : flattenedCommands Journal.heap w = Some [1; 0; 3])
    by reflexivity.
  split; [exact Hf|].
  exact (flattening_is_idempotent Journal.heap w [1; 0; 3] Hf).
Defined.

Lemma display_follows_navigation_order_witness :
  let w := Playground.open_at 1 in
  (flattenedCommands Playground.heap w = Some [0; 1; 2] /\
   commands w <> [] /\ NoDup (commands w)) /\
  exists l,
    render_command_list Playground.heap w = Some l /\
    map item_command (items l) = [0; 1; 2] /\
    forall i it,
      nth_error (items l) i = Some it ->
      data_command_index it = Z.of_nat i /\
      nth_error [0; 1; 2] i = Some (item_command it) /\
      (item_selected it = true <-> selectedIndex w = Z.of_nat i).
Proof.
  intros w.
  assert (Hne : commands w <> []) by discriminate.
  assert (Hnd : NoDup (commands w)).
  { repeat constructor; simpl; intuition discriminate. }
  split; [repeat split; assumption|].
  destruct (display_follows_navigation_order Playground.heap w [0; 1; 2]
              eq_refl) as [_ Hlist].
  destruct (Hlist Hne) as (l & Hl & Hcmds & Hpos).
  exists l. split; [exact Hl|]. split; [exact Hcmds | exact (Hpos Hnd)].
Defined.

Lemma scroll_target_is_the_selected_item_witness :
  let w := Playground.open_at 2 in
  (flattenedCommands Playground.heap w = Some [0; 1; 2] /\
   commands w <> [] /\ NoDup (commands w) /\
   (0 <= selectedIndex w <= JS.length [0; 1; 2] - 1)%Z) /\
  exists l it,
    render_command_list Playground.heap w = Some l /\
    scroll_target w l = Some it /\
    item_selected it = true /\
    JS.at_index [0; 1; 2] (selectedIndex w) = Some (item_command it).
Proof.
  intros w.
  assert (Hne : commands w <> []) by discriminate.
  assert (Hnd : NoDup (commands w)).
  { repeat constructor; simpl; intuition discriminate. }
  assert (Hrange : (0 <= selectedIndex w <= JS.length [0; 1; 2] - 1)%Z)
    by (unfold JS.length; simpl; lia).
  split; [repeat split; solve [assumption | apply Hrange]|].
  destruct (scroll_target_is_the_selected_item Playground.heap w [0; 1; 2]
              eq_refl Hne) as (l & Hl & Hin & _).
  destruct (Hin Hnd Hrange) as (it & Htarget & _ & Hsel & Hat).
  exists l, it. repeat split; assumption.
Defined.

Lemma playground_button_restores_the_panel_witness :
  let w := mkWorld Playground.commands true "se" 2%Z true tt in
  let hidden := keydown Playground.heap Enter w in
  (visible w = true /\
   flattenedCommands Playground.heap w = Some [0; 1; 2] /\
   JS.at_index [0; 1; 2] (selectedIndex w) = Some 2) /\
  widget hidden = (false, "se", 2%Z, true) /\
  App.toggleCommandPalette hidden = w.
Proof.
  intros w hidden. split; [repeat split|].
  destruct (playground_button_restores_the_panel w [0; 1; 2] 2
              eq_refl eq_refl eq_refl) as (Hhidden & Hback & _).
  split; [|exact Hback]. unfold hidden. now rewrite Hhidden.
Defined.
